(** * pybasicbayes.distributions.regression: a shallow embedding

    Bayesian linear regression with a matrix-normal-inverse-Wishart prior
    ([Regression]), its non-conjugate variant ([RegressionNonconj]) and the
    ARD variant ([ARDRegression]).

    Numbers.  A numpy float is modelled as an extended number over an
    ordered field [F]: finite values compute exactly (no rounding), and
    NaN and the two infinities follow the IEEE rules for special values
    (signed zeros are not distinguished).  Arrays are MathComp matrices
    over that type; a 1-d array is a row vector.

    Effects.  A method is a function of a configuration (the object, the
    state of the random generator, the trace of calls made to the sampling
    layer) that returns the new configuration and an outcome: a value or a
    Python exception.  Mutations made before an exception are kept, as in
    Python.

    The numeric utility layer (numpy.linalg, numpy.random and
    pybasicbayes.util) is outside this module: its functions are section
    variables, and what the proofs use of them is stated as hypotheses. *)

From HB Require Import structures.
From mathcomp Require Import ssreflect ssrfun ssrbool eqtype ssrnat seq choice.
From mathcomp Require Import fintype finfun bigop order ssralg ssrnum.
From mathcomp Require Import matrix mxalgebra rat ssrint.

Set Implicit Arguments.
Unset Strict Implicit.
Unset Printing Implicit Defensive.

Import GRing.Theory Num.Theory Order.Theory.
Local Open Scope ring_scope.

Declare Scope float_scope.
Delimit Scope float_scope with fl.
Declare Scope array_scope.
Delimit Scope array_scope with A.
Declare Scope meth_scope.
Delimit Scope meth_scope with M.

(** ** Floats *)

Variant float (F : Type) : Type :=
  | Fin of F
  | PInf
  | NInf
  | NaN.
Arguments PInf {F}.
Arguments NInf {F}.
Arguments NaN {F}.

Section FloatOps.
Variable F : realFieldType.
Implicit Types x y z : float F.

(** np.isnan *)
Definition isnan x : bool := if x is NaN then true else false.

(** np.isfinite *)
Definition isfinite x : bool := if x is Fin _ then true else false.

Definition fadd x y : float F :=
  match x, y with
  | NaN, _ | _, NaN => NaN
  | Fin a, Fin b => Fin (a + b)
  | PInf, NInf | NInf, PInf => NaN
  | PInf, _ | _, PInf => PInf
  | NInf, _ | _, NInf => NInf
  end.

Definition fneg x : float F :=
  match x with
  | Fin a => Fin (- a)
  | PInf => NInf
  | NInf => PInf
  | NaN => NaN
  end.

Definition fsub x y : float F := fadd x (fneg y).

Definition inf_of_sign (pos : bool) : float F := if pos then PInf else NInf.

Definition fmul x y : float F :=
  match x, y with
  | NaN, _ | _, NaN => NaN
  | Fin a, Fin b => Fin (a * b)
  | Fin a, PInf | PInf, Fin a => if a == 0 then NaN else inf_of_sign (0 < a)
  | Fin a, NInf | NInf, Fin a => if a == 0 then NaN else inf_of_sign (a < 0)
  | PInf, PInf | NInf, NInf => PInf
  | PInf, NInf | NInf, PInf => NInf
  end.

(** [1/x]; a zero is taken as positive. *)
Definition finv x : float F :=
  match x with
  | Fin a => if a == 0 then PInf else Fin a^-1
  | PInf | NInf => Fin 0
  | NaN => NaN
  end.

Definition fdiv x y : float F := fmul x (finv y).

(** [x < y]; any comparison with NaN is false. *)
Definition flt x y : bool :=
  match x, y with
  | NaN, _ | _, NaN => false
  | Fin a, Fin b => a < b
  | NInf, NInf | PInf, _ => false
  | NInf, _ | Fin _, PInf => true
  | Fin _, NInf => false
  end.

Definition fle x y : bool :=
  match x, y with
  | NaN, _ | _, NaN => false
  | Fin a, Fin b => a <= b
  | NInf, _ | _, PInf => true
  | PInf, _ | Fin _, NInf => false
  end.

Definition fabs x : float F :=
  match x with
  | Fin a => Fin `|a|
  | PInf | NInf => PInf
  | NaN => NaN
  end.

Definition of_nat (k : nat) : float F := Fin k%:R.

Lemma faddA : associative fadd.
Proof. by case=> [a|||] [b|||] [c|||] //=; rewrite addrA. Qed.

Lemma faddC : commutative fadd.
Proof. by case=> [a|||] [b|||] //=; rewrite addrC. Qed.

Lemma fadd0 : left_id (Fin 0) fadd.
Proof. by case=> [a|||] //=; rewrite add0r. Qed.

End FloatOps.

HB.instance Definition _ (F : realFieldType) :=
  Monoid.isComLaw.Build (float F) (Fin 0)
    (@fadd F) (@faddA F) (@faddC F) (@fadd0 F).

Notation "x + y" := (fadd x y) : float_scope.
Notation "x - y" := (fsub x y) : float_scope.
Notation "x * y" := (fmul x y) : float_scope.
Notation "x / y" := (fdiv x y) : float_scope.
Notation "x < y" := (flt x y) : float_scope.
Notation "x <= y" := (fle x y) : float_scope.

(** ** Arrays *)

Section Arrays.
Variable F : realFieldType.
Local Notation fl := (float F).

(** [A.dot(B)] *)
Definition dot m n p (A : 'M[fl]_(m, n)) (B : 'M[fl]_(n, p)) : 'M[fl]_(m, p) :=
  \matrix_(i, k) \big[@fadd F/Fin 0]_j (A i j * B j k)%fl.

(** elementwise [A + B], [A - B] *)
Definition add m n (A B : 'M[fl]_(m, n)) : 'M[fl]_(m, n) :=
  map2_mx (@fadd F) A B.

Definition sub m n (A B : 'M[fl]_(m, n)) : 'M[fl]_(m, n) :=
  map2_mx (@fsub F) A B.

(** scalar times array, array over scalar *)
Definition scale m n (c : fl) (A : 'M[fl]_(m, n)) : 'M[fl]_(m, n) :=
  map_mx (fmul c) A.

Definition divs m n (A : 'M[fl]_(m, n)) (c : fl) : 'M[fl]_(m, n) :=
  map_mx (fun x => fdiv x c) A.

(** np.eye(n), np.zeros((m,n)) *)
Definition eye n : 'M[fl]_n :=
  \matrix_(i, j) (if i == j then Fin 1 else Fin 0).

Definition zeros m n : 'M[fl]_(m, n) := const_mx (Fin 0).

(** The array of a matrix of finite numbers. *)
Definition lift m n (A : 'M[F]_(m, n)) : 'M[fl]_(m, n) := map_mx (@Fin F) A.

End Arrays.

Arguments dot {F m n p} (A B)%_array_scope.
Arguments add {F m n} (A B)%_array_scope.
Arguments sub {F m n} (A B)%_array_scope.
Arguments scale {F m n} c%_float_scope A%_array_scope.
Arguments divs {F m n} A%_array_scope c%_float_scope.

Notation "A + B" := (add A B) : array_scope.
Notation "A - B" := (sub A B) : array_scope.
Notation "A *m B" := (dot A B) : array_scope.
Notation "c *: A" := (scale c A) : array_scope.
Notation "A /: c" := (divs A c) (at level 40, left associativity) : array_scope.

(** From here on an argument that is a matrix is read as an array. *)
Bind Scope array_scope with matrix.

(** ** Tuples of four

    The natural hyperparameters [(A,B,C,d)] and the sufficient statistics
    [(yyT, yxT, xxT, n)] are arrays of four objects of the same shapes; the
    source adds them componentwise, and starts sums from the tuple of
    zeros. *)

Section Quad.
Variables (F : realFieldType) (p q : nat).
Local Notation fl := (float F).

Definition quad : Type := ('M[fl]_p * 'M[fl]_(p, q) * 'M[fl]_q * fl)%type.

Definition quad_add (s t : quad) : quad :=
  let: (A1, B1, C1, d1) := s in
  let: (A2, B2, C2, d2) := t in
  (A1 + A2, B1 + B2, C1 + C2, (d1 + d2)%fl)%A.

Definition quad0 : quad :=
  (zeros F p p, zeros F p q, zeros F q q, Fin 0).

Lemma quad_addA : associative quad_add.
Proof.
move=> [[[A1 B1] C1] d1] [[[A2 B2] C2] d2] [[[A3 B3] C3] d3] /=.
by rewrite /add !map2_mxA faddA.
Qed.

Lemma quad_addC : commutative quad_add.
Proof.
move=> [[[A1 B1] C1] d1] [[[A2 B2] C2] d2] /=.
by rewrite /add faddC (map2_mxC A1) (map2_mxC B1) (map2_mxC C1).
Qed.

Lemma quad_add0 : left_id quad0 quad_add.
Proof.
move=> [[[A1 B1] C1] d1]; rewrite /quad0 /=.
rewrite /add /zeros !map2_1mx.
by case: d1 => [x|||] //; rewrite add0r.
Qed.

Lemma quad_addCA : left_commutative quad_add.
Proof. by move=> x y z; rewrite !quad_addA (quad_addC x). Qed.

End Quad.

HB.instance Definition _ (F : realFieldType) (p q : nat) :=
  Monoid.isComLaw.Build (quad F p q) (quad0 F p q)
    (@quad_add F p q) (@quad_addA F p q) (@quad_addC F p q)
    (@quad_add0 F p q).

(** ** Outcomes and the method monad *)

Variant exn : Set :=
  | AssertionError
  | LinAlgError
  | AttributeError
  | TypeError
  | IndexError
  | ValueError.

Variant outcome (X : Type) : Type :=
  | Return of X
  | Raise of exn.
Arguments Raise {X}.

Definition obind X Y (c : outcome X) (k : X -> outcome Y) : outcome Y :=
  match c with
  | Return x => k x
  | Raise e => Raise e
  end.

(** A primitive of the numeric layer that fails does so with LinAlgError. *)
Definition linalg X (r : option X) : outcome X :=
  if r is Some x then Return x else Raise LinAlgError.

(** [assert b] *)
Definition assert (b : bool) : outcome unit :=
  if b then Return tt else Raise AssertionError.

Declare Scope outcome_scope.
Delimit Scope outcome_scope with O.
Notation "'do' x <- c ; k" := (obind c (fun x => k))
  (at level 200, x name, c at level 100, k at level 200,
   format "'[v' 'do'  x  <-  c ; '/' k ']'") : outcome_scope.

Lemma obind_Return X Y (x : X) (k : X -> outcome Y) : obind (Return x) k = k x.
Proof. by []. Qed.

Lemma obind_Raise X Y e (k : X -> outcome Y) : obind (Raise e) k = Raise e.
Proof. by []. Qed.

(** ** The model *)

Section Model.

Variable F : realFieldType.
Local Notation fl := (float F).

(** *** The numeric utility layer *)

(** pybasicbayes.util.general.inv_psd: the inverse of a positive definite
    matrix through its Cholesky factor; [None] is LinAlgError. *)
Variable inv_psd : forall n, 'M[fl]_n -> option 'M[fl]_n.

(** np.linalg.eigvalsh *)
Variable eigvalsh : forall n, 'M[fl]_n -> seq fl.

(** np.linalg.solve and np.linalg.inv; [None] is LinAlgError. *)
Variable solve : forall n m, 'M[fl]_n -> 'M[fl]_(n, m) -> option 'M[fl]_(n, m).
Variable inv : forall n, 'M[fl]_n -> option 'M[fl]_n.

(** The random generator and the sampling primitives: a draw takes the state
    of the generator and returns the value drawn and the next state. *)
Variable rng : Type.
Variable sample_gaussian :
  forall k, 'M[fl]_k -> 'rV[fl]_k -> rng -> 'rV[fl]_k * rng.
Variable sample_invwishart :
  forall n, 'M[fl]_n -> fl -> rng -> 'M[fl]_n * rng.
Variable sample_mniw :
  forall p q, fl -> 'M[fl]_p -> 'M[fl]_(p, q) -> 'M[fl]_q ->
  rng -> ('M[fl]_(p, q) * 'M[fl]_p) * rng.
Variable random_gamma :
  forall n, 'rV[fl]_n -> 'rV[fl]_n -> rng -> 'rV[fl]_n * rng.

(** Float literals of the source. *)
Definition f1e_8 : fl := Fin (10%:R ^- 8).
Definition f1e_10 : fl := Fin (10%:R ^- 10).
Definition f1e_5 : fl := Fin (10%:R ^- 5).
Definition f2 : fl := Fin 2%:R.
Definition f1 : fl := Fin 1.
Definition f0 : fl := Fin 0.

(** np.allclose(a, b) with the default rtol=1e-5, atol=1e-8:
    all of |a - b| <= atol + rtol * |b|; equal infinities are close, NaN
    is close to nothing. *)
Definition isclose (x y : fl) : bool :=
  match x, y with
  | Fin _, Fin _ => (fabs (x - y) <= f1e_8 + f1e_5 * fabs y)%fl
  | PInf, PInf | NInf, NInf => true
  | _, _ => false
  end.

Definition allclose m n (X Y : 'M[fl]_(m, n)) : bool :=
  [forall i, forall j, isclose (X i j) (Y i j)].

(** np.all(0 < v) *)
Definition all_pos (v : seq fl) : bool := all (fun x => (f0 < x)%fl) v.

Local Open Scope array_scope.

(** *** Converting between natural and standard parameters *)

Section Converter.
Variables p q : nat.

Local Notation quad := (quad F p q).

Definition _standard_to_natural (nu : fl) (S : 'M[fl]_p) (M : 'M[fl]_(p, q))
    (K : 'M[fl]_q) : outcome quad :=
  (do Kinv <- linalg (inv_psd K);
   let A := S + M *m Kinv *m M^T in
   let B := M *m Kinv in
   let C := Kinv in
   let d := nu in
   Return (A, B, C, d))%O.

Definition _natural_to_standard (natparam : quad) :
    outcome (fl * 'M[fl]_p * 'M[fl]_(p, q) * 'M[fl]_q) :=
  let: (A, B, C, d) := natparam in
  let nu := d in
  let Kinv := C in
  (do K <- linalg (inv_psd Kinv);
   let M := B *m K in
   let S := A - B *m K *m B^T in
   let K := K + f1e_8 *: eye F q in
   do _ <- assert (all_pos (eigvalsh S));
   do _ <- assert (all_pos (eigvalsh K));
   Return (nu, S, M, K))%O.

End Converter.

(** *** The objects

    A data row has [d_x] input coordinates followed by [d_y] output
    coordinates.  The source slices with [-D] for [D = self.D_out], which
    selects the last [D] coordinates only when [D] is not zero: the number
    of outputs is a successor.  [d_in] is the number of columns of the
    coefficient matrix: the inputs and, for an affine model, the offset.
    [nb] is the number of blocks of an ARD model. *)

Section Classes.
Variables (d_x d_y' : nat) (affine : bool) (nb : nat).
Local Notation d_y := d_y'.+1.

Definition d_in : nat := if affine then (d_x + 1)%N else d_x.

(** [if self.affine: ... else: ...] where the two branches build arrays over
    [d_x + 1] and over [d_x] input columns. *)
Definition if_affine (b : bool) (T : nat -> Type) (t : T (d_x + 1)%N)
    (e : T d_x) : T (if b then (d_x + 1)%N else d_x) :=
  if b as b0 return T (if b0 then (d_x + 1)%N else d_x) then t else e.
Arguments if_affine b T t e : clear implicits.

(** A 2-d data array is the list of its rows; data is an array or a list of
    data; weights come as one array per data array. *)
Definition ndarray : Type := seq 'rV[fl]_(d_x + d_y).

Inductive data : Type :=
  | Array of ndarray
  | List of seq data.

Inductive weights : Type :=
  | WArray of seq fl
  | WList of seq weights.

Definition stats : Type := quad F d_y d_in.

(** The attributes of an instance of Regression or of one of its subclasses.
    [A] and [sigma] may be None; [natural_hypparam] is absent when the
    object was built without hyperparameters; [broken] is absent ([false])
    until max_likelihood sets it.  The attributes from [niter] on are those
    of the subclasses: [h_0], [J_0] of RegressionNonconj; [a], [b],
    [blocksizes], [starts], [stops], [M_0], [K_0] of ARDRegression; [niter],
    [nu_0], [S_0] of both. *)
Record regression : Type := Regression {
  A : option 'M[fl]_(d_y, d_in);
  sigma : option 'M[fl]_d_y;
  natural_hypparam : option stats;
  broken : bool;
  niter : nat;
  nu_0 : fl;
  S_0 : 'M[fl]_d_y;
  h_0 : 'M[fl]_(d_y, d_in);
  J_0 : 'M[fl]_(d_y * d_in);
  a : 'rV[fl]_nb;
  b : 'rV[fl]_nb;
  blocksizes : 'rV[nat]_nb;
  starts : 'rV[nat]_nb;
  stops : 'rV[nat]_nb;
  M_0 : 'M[fl]_(d_y, d_in);
  K_0 : 'M[fl]_d_in
}.

Definition set_A v (o : regression) : regression :=
  Regression v (sigma o) (natural_hypparam o) (broken o) (niter o) (nu_0 o)
    (S_0 o) (h_0 o) (J_0 o) (a o) (b o) (blocksizes o) (starts o) (stops o)
    (M_0 o) (K_0 o).

Definition set_sigma v (o : regression) : regression :=
  Regression (A o) v (natural_hypparam o) (broken o) (niter o) (nu_0 o)
    (S_0 o) (h_0 o) (J_0 o) (a o) (b o) (blocksizes o) (starts o) (stops o)
    (M_0 o) (K_0 o).

Definition set_natural_hypparam v (o : regression) : regression :=
  Regression (A o) (sigma o) v (broken o) (niter o) (nu_0 o)
    (S_0 o) (h_0 o) (J_0 o) (a o) (b o) (blocksizes o) (starts o) (stops o)
    (M_0 o) (K_0 o).

Definition set_broken v (o : regression) : regression :=
  Regression (A o) (sigma o) (natural_hypparam o) v (niter o) (nu_0 o)
    (S_0 o) (h_0 o) (J_0 o) (a o) (b o) (blocksizes o) (starts o) (stops o)
    (M_0 o) (K_0 o).

Definition set_K_0 v (o : regression) : regression :=
  Regression (A o) (sigma o) (natural_hypparam o) (broken o) (niter o)
    (nu_0 o) (S_0 o) (h_0 o) (J_0 o) (a o) (b o) (blocksizes o) (starts o)
    (stops o) (M_0 o) v.

(** Reading an attribute that is absent, or calling a method of None. *)
Definition attr X (v : option X) : outcome X :=
  if v is Some x then Return x else Raise AttributeError.

(** *** Properties *)

(** [mat = self.A if self.A is not None else self.natural_hypparam[1]]:
    the dimensions are read off the shape of [mat]. *)
Definition shape_mat (self : regression) : outcome (nat * nat) :=
  if A self is Some _ then Return (d_y, d_in)
  else (do _ <- attr (natural_hypparam self); Return (d_y, d_in))%O.

Definition D_in (self : regression) : outcome nat :=
  (do sh <- shape_mat self; Return sh.2)%O.

Definition D_out (self : regression) : outcome nat :=
  (do sh <- shape_mat self; Return sh.1)%O.

(** *** Getting statistics *)

(** [np.isnan(data).any(1)] *)
Definition isnan_any1 (X : ndarray) : bitseq :=
  [seq [exists j, isnan (r 0 j)] | r : 'rV[fl]_(d_x + d_y) <- X].

(** [X.T.dot(Y)] for two arrays with the same number of rows *)
Definition T_dot w (X Y : seq 'rV[fl]_w) : 'M[fl]_w :=
  \matrix_(i, j) \big[@fadd F/f0]_(r <- zip X Y) (r.1 0 i * r.2 0 j)%fl.

(** [X.sum(0)] *)
Definition sum0 w (X : seq 'rV[fl]_w) : 'rV[fl]_w :=
  \row_j \big[@fadd F/f0]_(r <- X) r 0 j.

(** [weights.sum()], [weights[:,na]*X], [weights.dot(X)] *)
Definition wsum (ws : seq fl) : fl := \big[@fadd F/f0]_(w <- ws) w.

Definition wrows w (ws : seq fl) (X : seq 'rV[fl]_w) : seq 'rV[fl]_w :=
  [seq r.1 *: r.2 | r <- zip ws X].

Definition wdot w (ws : seq fl) (X : seq 'rV[fl]_w) : 'rV[fl]_w :=
  \row_j \big[@fadd F/f0]_(r <- zip ws X) (r.1 * r.2 0 j)%fl.

Definition _empty_statistics (self : regression) : outcome stats :=
  (do _ <- D_in self;
   do _ <- D_out self;
   Return (quad0 F d_y d_in))%O.

(** The slices [statmat[:-D,:-D]], [statmat[-D:,:-D]], [statmat[-D:,-D:]]
    of the second-moment matrix, the affine row and column, and the tuple
    returned; it is shared by the weighted and the unweighted path, which
    differ in [statmat], [n] and the vector of sums [xy]. *)
Definition partition_statmat (statmat : 'M[fl]_(d_x + d_y))
    (xy : 'rV[fl]_(d_x + d_y)) (n : fl) : stats :=
  let xxT := ulsubmx statmat in
  let yxT := dlsubmx statmat in
  let yyT := drsubmx statmat in
  let x := lsubmx xy in
  let y := rsubmx xy in
  let xxT' : 'M[fl]_d_in :=
    if_affine affine (fun k => 'M[fl]_k)
      (block_mx xxT x^T x (const_mx n)) xxT in
  let yxT' : 'M[fl]_(d_y, d_in) :=
    if_affine affine (fun k => 'M[fl]_(d_y, k)) (row_mx yxT y^T) yxT in
  (yyT, yxT', xxT', n).

(** [sum(iterable, start)] over outcomes: the items are computed and added
    from left to right. *)
Definition sum_stats (items : seq (outcome stats)) (start : stats) :
    outcome stats :=
  foldl (fun acc item =>
           (do s <- acc; do t <- item; Return (quad_add s t))%O)
        (Return start) items.

Fixpoint _get_statistics (self : regression) (d : data) : outcome stats :=
  match d with
  | List ds =>
      (do start <- _empty_statistics self;
       sum_stats [seq _get_statistics self d' | d' <- ds] start)%O
  | Array X =>
      let X := mask [seq ~~ m | m <- isnan_any1 X] X in
      (do D <- D_out self;
       let n := of_nat F (size X) in
       let statmat := T_dot X X in
       Return (partition_statmat statmat (sum0 X) n))%O
  end.

Definition _get_weighted_statistics (self : regression) (d : data)
    (w : weights) : outcome stats :=
  match d with
  | List ds =>
      (do start <- _empty_statistics self;
       sum_stats [seq _get_statistics self d' | d' <- ds] start)%O
  | Array X =>
      match w with
      | WList _ => Raise TypeError
      | WArray ws =>
          if size ws != size X then Raise IndexError else
          let gi := [seq ~~ m | m <- isnan_any1 X] in
          let X := mask gi X in
          let ws := mask gi ws in
          (do D <- D_out self;
           let n := wsum ws in
           let statmat := T_dot X (wrows ws X) in
           Return (partition_statmat statmat (wdot ws X) n))%O
      end
  end.

(** Modelled from the spec: pybasicbayes.util.stats.getdatasize, "a helper
    that computes the total row count across a dataset or list of
    datasets". *)
Fixpoint getdatasize (d : data) : nat :=
  match d with
  | Array X => size X
  | List ds => sumn [seq getdatasize d' | d' <- ds]
  end.

(** [len(data)] *)
Definition len (d : data) : nat :=
  match d with
  | Array X => size X
  | List ds => size ds
  end.

(** *** Methods

    The trace records the calls a method makes to the statistics engine and
    to the sampling layer, with their arguments, in order. *)

Variant event : Type :=
  | Call_get_statistics of data
  | Call_get_weighted_statistics of data & weights
  | Draw_gaussian of 'M[fl]_(d_y * d_in) & 'rV[fl]_(d_y * d_in)
  | Draw_invwishart of 'M[fl]_d_y & fl
  | Draw_mniw of fl & 'M[fl]_d_y & 'M[fl]_(d_y, d_in) & 'M[fl]_d_in
  | Draw_gamma of 'rV[fl]_nb & 'rV[fl]_nb.

Record world : Type := World { gen : rng; trace : seq event }.

Definition config : Type := (regression * world)%type.

Definition meth (X : Type) : Type := config -> config * outcome X.

Definition ret X (x : X) : meth X := fun c => (c, Return x).

Definition bind X Y (m : meth X) (k : X -> meth Y) : meth Y :=
  fun c =>
    let: (c', r) := m c in
    match r with
    | Return x => k x c'
    | Raise e => (c', Raise e)
    end.

Definition get_self : meth regression := fun c => (c, Return c.1).

Definition update (f : regression -> regression) : meth unit :=
  fun c => ((f c.1, c.2), Return tt).

Definition lift_outcome X (o : outcome X) : meth X := fun c => (c, o).

Definition call (e : event) : meth unit :=
  fun c => ((c.1, World (gen c.2) (rcons (trace c.2) e)), Return tt).

Definition draw X (e : event) (f : rng -> X * rng) : meth X :=
  fun c =>
    let: (x, g) := f (gen c.2) in
    ((c.1, World g (rcons (trace c.2) e)), Return x).

(** [try: m except np.linalg.LinAlgError: h] *)
Definition except_LinAlgError (m h : meth unit) : meth unit :=
  fun c =>
    let: (c', r) := m c in
    if r is Raise LinAlgError then h c' else (c', r).

(** [for itr in xrange(n): body] *)
Fixpoint for_range (n : nat) (body : meth unit) : meth unit :=
  if n is n'.+1 then bind body (fun _ => for_range n' body) else ret tt.

Notation "'do' x <- c ; k" := (bind c (fun x => k))
  (at level 200, x name, c at level 100, k at level 200) : meth_scope.
Notation "c ;; k" := (bind c (fun _ => k))
  (at level 100, k at level 200, right associativity) : meth_scope.

(** [self._get_statistics(data)] called from a method *)
Definition get_statistics (d : data) : meth stats :=
  (call (Call_get_statistics d) ;;
   do self <- get_self;
   lift_outcome (_get_statistics self d))%M.

Definition get_weighted_statistics (d : data) (w : weights) : meth stats :=
  (call (Call_get_weighted_statistics d w) ;;
   do self <- get_self;
   lift_outcome (_get_weighted_statistics self d w))%M.

(** **** Regression *)

(** The setter of [Regression.parameters] *)
Definition set_parameters (A_sigma_tuple : 'M[fl]_(d_y, d_in) * 'M[fl]_d_y) :
    meth unit :=
  let: (A, sigma) := A_sigma_tuple in
  (update (set_A (Some A)) ;;
   update (set_sigma (Some sigma)))%M.

(** The statement shared by Regression.resample and ARDRegression.resample:
    [self.A, self.sigma] are assigned the draw of sample_mniw at the
    standard form of [self.natural_hypparam + stats]. *)
Definition resample_mniw (st : stats) : meth unit :=
  (do self <- get_self;
   do nat <- lift_outcome (attr (natural_hypparam self));
   do std <- lift_outcome (_natural_to_standard (quad_add nat st));
   let: (nu, S_, M, K) := std in
   do A_sigma <- draw (Draw_mniw nu S_ M K) (sample_mniw nu S_ M K);
   update (set_A (Some A_sigma.1)) ;;
   update (set_sigma (Some A_sigma.2)))%M.

Definition resample (d : data) (st : option stats) : meth unit :=
  (do st <- (if st is Some st then ret st else get_statistics d);
   resample_mniw st)%M.

Definition symmetrize n (X : 'M[fl]_n) : 'M[fl]_n := (X + X^T) /: f2.

Definition max_likelihood (d : data) (w : option weights)
    (st : option stats) : meth unit :=
  (do st <- (if st is Some st then ret st
             else if w is Some w then get_weighted_statistics d w
             else get_statistics d);
   let: (yyT, yxT, xxT, n) := st in
   (if (f0 < n)%fl then
      except_LinAlgError
        (do X <- lift_outcome (linalg (solve xxT yxT^T));
         update (set_A (Some X^T)) ;;
         do self <- get_self;
         do A <- lift_outcome (attr (A self));
         update (set_sigma (Some ((yyT - A *m yxT^T) /: n))) ;;
         do self <- get_self;
         do D <- lift_outcome (D_out self);
         do sg <- lift_outcome (attr (sigma self));
         update (set_sigma (Some (f1e_10 *: eye F d_y + symmetrize sg))))
        (update (set_broken true))
    else update (set_broken true)) ;;
   do self <- get_self;
   do sg <- lift_outcome (attr (sigma self));
   lift_outcome (assert (allclose sg sg^T)) ;;
   lift_outcome (assert (all_pos (eigvalsh sg))) ;;
   ret tt)%M.

(** **** RegressionNonconj *)

(** [np.kron(X, Y)]: rows and columns are indexed by pairs in row-major
    order, as by [ravel]. *)
Definition unravel m n (r : 'I_(m * n)) : 'I_m * 'I_n :=
  enum_val (cast_ord (esym (mxvec_cast m n)) r).

Definition kron m n (X : 'M[fl]_m) (Y : 'M[fl]_n) : 'M[fl]_(m * n) :=
  \matrix_(r, c)
    (X (unravel r).1 (unravel c).1 * Y (unravel r).2 (unravel c).2)%fl.

Definition _resample_A (xxT : 'M[fl]_d_in) (yxT : 'M[fl]_(d_y, d_in))
    (sigma : option 'M[fl]_d_y) : meth unit :=
  (do sigmainv <- lift_outcome (linalg (if sigma is Some sg then inv sg
                                        else None));
   do self <- get_self;
   let J := J_0 self + kron sigmainv xxT in
   let h := h_0 self + sigmainv *m yxT in
   do v <- draw (Draw_gaussian J (mxvec h)) (sample_gaussian J (mxvec h));
   update (set_A (Some (vec_mx v))))%M.

Definition _resample_sigma (xxT : 'M[fl]_d_in) (yxT : 'M[fl]_(d_y, d_in))
    (yyT : 'M[fl]_d_y) (n : fl) (A : option 'M[fl]_(d_y, d_in)) :
    meth unit :=
  (do self <- get_self;
   do A <- lift_outcome (attr A);
   let S := S_0 self + yyT - yxT *m A^T - A *m yxT^T + A *m xxT *m A^T in
   let nu := (nu_0 self + n)%fl in
   do sg <- draw (Draw_invwishart S nu) (sample_invwishart S nu);
   update (set_sigma (Some sg)))%M.

Definition nonconj_resample (d : data) (niter_arg : option nat) : meth unit :=
  (do self <- get_self;
   let niter := if niter_arg is Some k.+1 then k.+1 else niter self in
   if getdatasize d == 0%N then
     do v <- draw (Draw_gaussian (J_0 self) (mxvec (h_0 self)))
                  (sample_gaussian (J_0 self) (mxvec (h_0 self)));
     update (set_A (Some (vec_mx v))) ;;
     do self <- get_self;
     do sg <- draw (Draw_invwishart (S_0 self) (nu_0 self))
                   (sample_invwishart (S_0 self) (nu_0 self));
     update (set_sigma (Some sg))
   else
     do st <- get_statistics d;
     let: (yyT, yxT, xxT, n) := st in
     for_range niter
       (do self <- get_self;
        _resample_A xxT yxT (sigma self) ;;
        do self <- get_self;
        _resample_sigma xxT yxT yyT n (A self)))%M.

(** **** ARDRegression *)

(** Modelled from the spec: pybasicbayes.util.general.cumsum, the "strict /
    non-strict cumulative-sum helper for block boundaries": entry [i] is the
    sum of the entries before [i], and of entry [i] too when not strict. *)
Definition cumsum (v : 'rV[nat]_nb) (strict : bool) : 'rV[nat]_nb :=
  \row_i (\sum_(k < nb | if strict then (k < i)%N else (k <= i)%N) v 0%R k)%N.

(** [v[start:stop].sum()] for a 1-d array [v] *)
Definition slice_sum n (v : 'rV[fl]_n) (start stop : nat) : fl :=
  \big[@fadd F/f0]_(j < n | (start <= j < stop)%N) v 0 j.

(** [np.repeat(ks, blocksizes)] *)
Definition np_repeat (ks : 'rV[fl]_nb) (sizes : 'rV[nat]_nb) : seq fl :=
  flatten [seq nseq (sizes 0 i) (ks 0 i) | i <- enum 'I_nb].

(** [np.diag(v)], for [v] of length [n] *)
Definition np_diag n (v : seq fl) : 'M[fl]_n :=
  \matrix_(i, j) (if i == j then nth f0 v i else f0).

(** [np.einsum('ij,ij->j', X, Y)] *)
Definition einsum_ij_ij_j m n (X Y : 'M[fl]_(m, n)) : 'rV[fl]_n :=
  \row_j \big[@fadd F/f0]_i (X i j * Y i j)%fl.

(** [np.diag(np.repeat(ks, blocksizes))] has as many rows as the block
    sizes add up to.  When that is not [D_in] the attribute [K_0] receives
    an array that _standard_to_natural cannot multiply with [M_0]; the
    model raises ValueError there and keeps the field [K_0], which cannot
    hold an array of another shape. *)
Definition resample_K (diag : option 'rV[fl]_d_in) : meth unit :=
  (do self <- get_self;
   do ab <- (if diag is Some diag then
               let sums : 'rV[fl]_nb :=
                 \row_i slice_sum diag (starts self 0 i) (stops self 0 i) in
               do D <- lift_outcome (D_out self);
               let a :=
                 a self +
                 map_mx (fun k : nat => (of_nat F (D * k) / f2)%fl)
                        (blocksizes self) in
               let b := b self + sums in
               ret (a, b)
             else ret (a self, b self));
   let: (a, b) := ab in
   let scale := map_mx (fun x => (f1 / x)%fl) b in
   do g <- draw (Draw_gamma a scale) (random_gamma a scale);
   let ks := map_mx (fun x => (f1 / x)%fl) g in
   let v := np_repeat ks (blocksizes self) in
   if size v != d_in then lift_outcome (Raise ValueError) else
   update (set_K_0 (np_diag d_in v)) ;;
   do self <- get_self;
   do nat <- lift_outcome (_standard_to_natural (nu_0 self) (S_0 self)
                             (M_0 self) (K_0 self));
   update (set_natural_hypparam (Some nat)))%M.

Definition ard_resample (d : data) (st : option stats) : meth unit :=
  (if (0 < len d)%N || (st : bool) then
     do st <- (if st is Some st then ret st else get_statistics d);
     do self <- get_self;
     for_range (niter self)
       (resample_mniw st ;;
        do self <- get_self;
        do A <- lift_outcome (attr (A self));
        let mat := M_0 self - A in
        do Z <- lift_outcome
                  (linalg (if sigma self is Some sg then solve sg mat
                           else None));
        resample_K (Some ((f1 / f2)%fl *: einsum_ij_ij_j mat Z)))
   else
     resample_K None ;;
     resample (List [::]) None)%M.

(** The setter of [ARDRegression.parameters] *)
Definition ard_set_parameters
    (A_sigma_K_0_tuple1 : 'M[fl]_(d_y, d_in) * 'M[fl]_d_y * 'M[fl]_d_in) :
    meth unit :=
  let: (A, sigma, K_0) := A_sigma_K_0_tuple1 in
  (update (set_A (Some A)) ;;
   update (set_sigma (Some sigma)) ;;
   update (set_K_0 K_0))%M.

(** ** Theory *)

(** *** Arrays of finite numbers compute as matrices over the field *)

Section Lifting.

Lemma lift_inj m n : injective (@lift F m n).
Proof.
move=> X Y /matrixP e; apply/matrixP=> i j.
by have := e i j; rewrite !mxE; case.
Qed.

Lemma big_fadd_Fin (I : Type) (r : seq I) (P : pred I) (f : I -> F) :
  \big[@fadd F/f0]_(i <- r | P i) Fin (f i) = Fin (\sum_(i <- r | P i) f i)%R.
Proof.
elim: r => [|i r IH]; first by rewrite !big_nil.
by rewrite !big_cons; case: (P i); rewrite // IH.
Qed.

Lemma lift_dot m n k (X : 'M[F]_(m, n)) (Y : 'M[F]_(n, k)) :
  lift X *m lift Y = lift (X *m Y)%R.
Proof.
apply/matrixP=> i j; rewrite !mxE.
rewrite (eq_bigr (fun l => Fin (X i l * Y l j)%R)) ?big_fadd_Fin //.
by move=> l _; rewrite !mxE.
Qed.

Lemma lift_add m n (X Y : 'M[F]_(m, n)) : lift X + lift Y = lift (X + Y)%R.
Proof. by apply/matrixP=> i j; rewrite !mxE. Qed.

Lemma lift_sub m n (X Y : 'M[F]_(m, n)) : lift X - lift Y = lift (X - Y)%R.
Proof. by apply/matrixP=> i j; rewrite !mxE. Qed.

Lemma lift_scale m n (c : F) (X : 'M[F]_(m, n)) :
  Fin c *: lift X = lift (c *: X)%R.
Proof. by apply/matrixP=> i j; rewrite !mxE. Qed.

Lemma lift_divs m n (c : F) (X : 'M[F]_(m, n)) :
  c != 0%R -> lift X /: Fin c = lift (c^-1 *: X)%R.
Proof.
move=> c0; apply/matrixP=> i j; rewrite !mxE /fdiv /= (negbTE c0) /=.
by rewrite mulrC.
Qed.

Lemma lift_tr m n (X : 'M[F]_(m, n)) : (lift X)^T = lift X^T.
Proof. by rewrite /lift map_trmx. Qed.

Lemma lift_eye n : eye F n = lift 1%:M.
Proof. by apply/matrixP=> i j; rewrite !mxE; case: eqP. Qed.

Lemma lift_scale_eye n (c : F) : Fin c *: eye F n = lift c%:M.
Proof. by rewrite lift_eye lift_scale scalemx1. Qed.

End Lifting.

(** *** Symmetric positive definite matrices *)

Section PositiveDefinite.
Variable n : nat.
Implicit Types M : 'M[F]_n.

Definition symmetric M : Prop := (M^T = M)%R.

Definition posdef M : Prop :=
  forall x : 'rV[F]_n, x != 0%R -> (0 < (x *m M *m x^T) 0 0)%R.

Definition spd M : Prop := symmetric M /\ posdef M.

Lemma posdef_unit M : posdef M -> M \in unitmx.
Proof.
move=> pd; rewrite -row_free_unit -kermx_eq0.
apply/rowV0P => v /sub_kermxP vM0.
apply/eqP/negPn/negP => /pd.
by rewrite vM0 mul0mx mxE ltxx.
Qed.

Lemma spd_inv M : spd M -> spd (invmx M).
Proof.
move=> [sym pd]; have uM := posdef_unit pd.
have symV : symmetric (invmx M) by rewrite /symmetric trmx_inv sym.
split=> // x x0.
have y0 : (x *m invmx M)%R != 0%R.
  apply: contra x0 => /eqP e.
  by rewrite -(mulmxKV uM x) e mul0mx.
have := pd _ y0.
by rewrite trmx_mul symV mulmxKV // mulmxA.
Qed.

Lemma spd_add_scalar M (e : F) : spd M -> (0 <= e)%R -> spd (M + e%:M)%R.
Proof.
move=> [sym pd] e0; split.
  by rewrite /symmetric linearD /= sym tr_scalar_mx.
move=> x x0; rewrite mulmxDr mulmxDl mxE.
apply: ltr_wpDr; last exact: pd.
rewrite mul_mx_scalar -scalemxAl mxE mulr_ge0 // mxE.
by apply: sumr_ge0 => i _; rewrite mxE -expr2 sqr_ge0.
Qed.

End PositiveDefinite.

(** *** The natural-parameter converter *)

Section ConverterTheory.
Variables p q : nat.

(** What the converter needs of the numeric layer: eigvalsh finds the
    eigenvalues of a symmetric matrix all positive exactly when the matrix
    is positive definite, and inv_psd inverts a symmetric positive definite
    matrix. *)
Hypothesis eigvalsh_p :
  forall S : 'M[F]_p, symmetric S ->
  (all_pos (eigvalsh (lift S)) <-> posdef S).
Hypothesis eigvalsh_q :
  forall K : 'M[F]_q, symmetric K ->
  (all_pos (eigvalsh (lift K)) <-> posdef K).

Lemma natural_to_standard_cases (A : 'M[fl]_p) (B : 'M[fl]_(p, q))
    (C : 'M[fl]_q) (d : fl) :
  _natural_to_standard (A, B, C, d) =
  match inv_psd C with
  | None => Raise LinAlgError
  | Some K0 =>
      let S := A - B *m K0 *m B^T in
      let K := K0 + f1e_8 *: eye F q in
      if all_pos (eigvalsh S) && all_pos (eigvalsh K)
      then Return (d, S, B *m K0, K)
      else Raise AssertionError
  end.
Proof.
rewrite /_natural_to_standard; case: (inv_psd C) => [K0|] //=.
by case: (all_pos _) => //=; case: (all_pos _).
Qed.

(** C9.  Once K is recovered from the natural parameters, the conversion
    checks the eigenvalues of the recovered S and of the regularized K: it
    raises AssertionError exactly when one of the two checks fails, raises
    nothing else, and returns [(nu, S, M, K)] when both pass; both pass when
    S and K are symmetric positive definite. *)
Theorem natural_to_standard_assertions (A : 'M[fl]_p) (B : 'M[fl]_(p, q))
    (C : 'M[fl]_q) (d : fl) (K0 : 'M[fl]_q) :
  inv_psd C = Some K0 ->
  let S := A - B *m K0 *m B^T in
  let K := K0 + f1e_8 *: eye F q in
  let checks := all_pos (eigvalsh S) && all_pos (eigvalsh K) in
  [/\ _natural_to_standard (A, B, C, d) = Raise AssertionError <-> ~~ checks,
      checks -> _natural_to_standard (A, B, C, d) = Return (d, S, B *m K0, K),
      forall e, _natural_to_standard (A, B, C, d) = Raise e ->
                e = AssertionError
    & forall (S' : 'M[F]_p) (K' : 'M[F]_q),
        S = lift S' -> K = lift K' -> spd S' -> spd K' ->
        _natural_to_standard (A, B, C, d) = Return (d, S, B *m K0, K)].
Proof.
move=> eK0 S K checks; rewrite natural_to_standard_cases eK0 /= -/S -/K -/checks.
split.
- by case: checks.
- by move=> ->.
- by move=> e; case: checks => // -[].
- move=> S' K' eS eK [symS pdS] [symK pdK].
  suff -> : checks by [].
  rewrite /checks eS eK.
  by apply/andP; split; [apply/eigvalsh_p | apply/eigvalsh_q].
Qed.

Hypothesis inv_psd_spd :
  forall K : 'M[F]_q, spd K -> inv_psd (lift K) = Some (lift (invmx K)).

Lemma standard_to_natural_lift (nu : fl) (S : 'M[F]_p) (M : 'M[F]_(p, q))
    (K : 'M[F]_q) :
  spd K ->
  _standard_to_natural nu (lift S) (lift M) (lift K) =
  Return (lift (S + M *m invmx K *m M^T)%R, lift (M *m invmx K)%R,
          lift (invmx K), nu).
Proof.
move=> spdK; rewrite /_standard_to_natural inv_psd_spd //=.
by rewrite lift_tr !lift_dot lift_add.
Qed.

(** C1.  For a standard tuple [(nu, S, M, K)] of finite numbers with S and K
    symmetric positive definite (K is then invertible), converting to
    natural parameters and back returns nu, S and M unchanged and K with
    the regularizer 1e-8 added on its diagonal. *)
Theorem natural_standard_roundtrip (nu : fl) (S : 'M[F]_p)
    (M : 'M[F]_(p, q)) (K : 'M[F]_q) :
  spd S -> spd K ->
  obind (_standard_to_natural nu (lift S) (lift M) (lift K))
        (@_natural_to_standard p q) =
  Return (nu, lift S, lift M, lift (K + (10%:R ^- 8)%:M)%R).
Proof.
move=> spdS spdK; have [symK pdK] := spdK.
have uK := posdef_unit pdK.
have [symV _] := spd_inv spdK.
rewrite standard_to_natural_lift // obind_Return natural_to_standard_cases.
rewrite (inv_psd_spd (spd_inv spdK)).
rewrite invmxK /= lift_scale_eye lift_tr !lift_dot lift_sub lift_add.
have -> : (M *m invmx K *m K = M)%R by rewrite mulmxKV.
have -> : (S + M *m invmx K *m M^T - M *m (M *m invmx K)^T = S)%R.
  by rewrite trmx_mul symV mulmxA addrK.
have cS : all_pos (eigvalsh (lift S)) by apply/eigvalsh_p; case: spdS.
have spdK' : spd (K + (10%:R ^- 8)%:M)%R.
  by apply: spd_add_scalar => //; rewrite invr_ge0 exprn_ge0 // ler0n.
have cK : all_pos (eigvalsh (lift (K + (10%:R ^- 8)%:M)%R)).
  by apply/eigvalsh_q; case: spdK'.
by rewrite cS cK.
Qed.

End ConverterTheory.

(** *** The statistics engine *)

Section StatisticsTheory.

Lemma fmul1 : left_id f1 (@fmul F).
Proof.
case=> [x|||] //=; first by rewrite mul1r.
  by rewrite oner_eq0 ltr01.
by rewrite oner_eq0 ltr10.
Qed.

(** The object has a shape to read its dimensions from. *)
Definition has_shape (self : regression) : bool :=
  A self || natural_hypparam self.

Lemma shape_mat_has_shape self :
  has_shape self -> shape_mat self = Return (d_y, d_in).
Proof.
by rewrite /has_shape /shape_mat; case: (A self) => //=; case: (natural_hypparam self).
Qed.

Lemma D_out_has_shape self : has_shape self -> D_out self = Return d_y.
Proof. by move=> /shape_mat_has_shape e; rewrite /D_out e. Qed.

Lemma empty_statistics_has_shape self :
  has_shape self -> _empty_statistics self = Return (quad0 F d_y d_in).
Proof.
by move=> /shape_mat_has_shape e; rewrite /_empty_statistics /D_in /D_out e.
Qed.

Lemma if_affine_map2 (b : bool) (T : nat -> Type)
    (f : forall k, T k -> T k -> T k) (t1 t2 : T (d_x + 1)%N) (e1 e2 : T d_x) :
  f _ (if_affine b T t1 e1) (if_affine b T t2 e2) =
  if_affine b T (f _ t1 t2) (f _ e1 e2).
Proof. by case: b. Qed.

Lemma partition_statmat_add (S1 S2 : 'M[fl]_(d_x + d_y))
    (xy1 xy2 : 'rV[fl]_(d_x + d_y)) (n1 n2 : fl) :
  partition_statmat (S1 + S2) (xy1 + xy2) (n1 + n2)%fl =
  quad_add (partition_statmat S1 xy1 n1) (partition_statmat S2 xy2 n2).
Proof.
rewrite /partition_statmat /quad_add /add.
rewrite -map2_drsubmx -map2_dlsubmx -map2_ulsubmx -map2_lsubmx -map2_rsubmx.
congr (_, _, _, _).
  rewrite (if_affine_map2 affine (fun k => @map2_mx _ _ _ (@fadd F) d_y k)).
  by rewrite map2_row_mx map2_trmx.
rewrite (if_affine_map2 affine (fun k => @map2_mx _ _ _ (@fadd F) k k)).
by rewrite /block_mx map2_col_mx !map2_row_mx map2_trmx map2_const_mx.
Qed.

Lemma partition_statmat0 :
  partition_statmat (zeros F _ _) (zeros F _ _) f0 = quad0 F d_y d_in.
Proof.
rewrite /partition_statmat /quad0 /zeros.
have sub0 m n k l :
    [/\ ulsubmx (const_mx f0 : 'M[fl]_(m + n, k + l)) = const_mx f0,
        dlsubmx (const_mx f0 : 'M[fl]_(m + n, k + l)) = const_mx f0
      & drsubmx (const_mx f0 : 'M[fl]_(m + n, k + l)) = const_mx f0].
  by split; apply/matrixP=> i j; rewrite !mxE.
have [-> -> ->] := sub0 d_x d_y d_x d_y.
rewrite lsubmx_const rsubmx_const !trmx_const block_mx_const row_mx_const.
by congr (_, _, _, _); rewrite /d_in; case: affine.
Qed.

(** The contribution of one row [r] with weight [w] to the statistics. *)
Definition contribution (w : fl) (r : 'rV[fl]_(d_x + d_y)) : stats :=
  partition_statmat (\matrix_(i, j) (r 0 i * (w * r 0 j))%fl)
                    (\row_j (w * r 0 j)%fl) w.

(** The statistics accumulated over weighted rows: what the array branches
    compute after the rows with NaN are dropped. *)
Definition accumulate (wr : seq (fl * 'rV[fl]_(d_x + d_y))) : stats :=
  partition_statmat
    (\matrix_(i, j) \big[@fadd F/f0]_(x <- wr) (x.2 0 i * (x.1 * x.2 0 j))%fl)
    (\row_j \big[@fadd F/f0]_(x <- wr) (x.1 * x.2 0 j)%fl)
    (\big[@fadd F/f0]_(x <- wr) x.1).

Lemma accumulate_sum wr :
  accumulate wr =
  \big[@quad_add F d_y d_in/quad0 F d_y d_in]_(x <- wr) contribution x.1 x.2.
Proof.
elim: wr => [|x wr IH].
  rewrite big_nil /accumulate -partition_statmat0 big_nil; congr partition_statmat.
    by apply/matrixP=> i j; rewrite !mxE big_nil.
  by apply/matrixP=> i j; rewrite !mxE big_nil.
rewrite big_cons -IH /accumulate /contribution -partition_statmat_add big_cons.
congr partition_statmat.
  by apply/matrixP=> i j; rewrite !mxE big_cons.
by apply/matrixP=> i j; rewrite !mxE big_cons.
Qed.


(** A row with a NaN in some coordinate, and the rows the array branches
    keep. *)
Definition row_isnan (r : 'rV[fl]_(d_x + d_y)) : bool :=
  [exists j, isnan (r 0 j)].

Definition row_nonfinite (r : 'rV[fl]_(d_x + d_y)) : bool :=
  [exists j, ~~ isfinite (r 0 j)].

Lemma mask_isnan_any1 (X : ndarray) :
  mask [seq ~~ m | m <- isnan_any1 X] X = [seq r <- X | ~~ row_isnan r].
Proof. by rewrite filter_mask /isnan_any1 -map_comp. Qed.

Lemma mask_isnan_any1_zip (ws : seq fl) (X : ndarray) :
  size ws = size X ->
  mask [seq ~~ m | m <- isnan_any1 X] (zip ws X) =
  [seq x <- zip ws X | ~~ row_isnan x.2].
Proof.
move=> sz; rewrite filter_mask /isnan_any1 -map_comp.
have {1}-> : X = [seq x.2 | x <- zip ws X].
  by rewrite -/(unzip2 _) unzip2_zip ?sz.
by rewrite -map_comp.
Qed.

Lemma zip_mask (S T : Type) (m : bitseq) (s : seq S) (t : seq T) :
  zip (mask m s) (mask m t) = mask m (zip s t).
Proof.
elim: m s t => [|b m IH] [|x s] [|y t] //=.
- by case: b => //=; case: (mask m t).
- by case: b => //=; case: (mask m s).
- by case: b; rewrite /= IH.
Qed.

Lemma of_nat_size (T : Type) (s : seq T) :
  of_nat F (size s) = \big[@fadd F/f0]_(x <- s) f1.
Proof.
elim: s => [|x s IH]; first by rewrite big_nil.
by rewrite big_cons -IH /of_nat /= -natr1 addrC.
Qed.

Lemma accumulate_unweighted (X : ndarray) :
  partition_statmat (T_dot X X) (sum0 X) (of_nat F (size X)) =
  accumulate [seq (f1, r) | r <- X].
Proof.
rewrite /accumulate of_nat_size big_map; congr partition_statmat.
  apply/matrixP=> i j; rewrite !mxE -{1}(map_id X) -{2}(map_id X) zip_map.
  by rewrite !big_map; apply: eq_bigr => r _; rewrite fmul1.
apply/matrixP=> i j; rewrite !mxE big_map.
by apply: eq_bigr => r _; rewrite fmul1.
Qed.

Lemma accumulate_weighted (ws : seq fl) (X : ndarray) :
  size ws = size X ->
  partition_statmat (T_dot X (wrows ws X)) (wdot ws X) (wsum ws) =
  accumulate (zip ws X).
Proof.
move=> sz; rewrite /accumulate /wsum /wrows.
have eX : X = [seq x.2 | x <- zip ws X] by rewrite -/(unzip2 _) unzip2_zip ?sz.
have ew : ws = [seq x.1 | x <- zip ws X] by rewrite -/(unzip1 _) unzip1_zip ?sz.
congr partition_statmat; last by rewrite {1}ew big_map.
apply/matrixP=> i j; rewrite !mxE {1}eX zip_map big_map.
by apply: eq_bigr => x _; rewrite /= !mxE.
Qed.

Lemma get_statistics_array self (X : ndarray) :
  has_shape self ->
  _get_statistics self (Array X) =
  Return (accumulate [seq (f1, r) | r <- X & ~~ row_isnan r]).
Proof.
move=> sh; rewrite /= D_out_has_shape //= accumulate_unweighted.
by rewrite mask_isnan_any1.
Qed.

Lemma get_weighted_statistics_array self (X : ndarray) (ws : seq fl) :
  has_shape self -> size ws = size X ->
  _get_weighted_statistics self (Array X) (WArray ws) =
  Return (accumulate [seq x <- zip ws X | ~~ row_isnan x.2]).
Proof.
move=> sh sz; rewrite /= sz eqxx /= D_out_has_shape //=.
rewrite accumulate_weighted ?size_mask ?size_map ?sz // zip_mask.
by rewrite mask_isnan_any1_zip.
Qed.

Lemma sum_stats_Return (ss : seq stats) (start : stats) :
  sum_stats [seq Return s | s <- ss] start =
  Return (foldl (@quad_add F d_y d_in) start ss).
Proof. by rewrite /sum_stats; elim: ss start => [|s ss IH] start //=. Qed.

Lemma accumulate_cat wr1 wr2 :
  accumulate (wr1 ++ wr2) = quad_add (accumulate wr1) (accumulate wr2).
Proof. by rewrite !accumulate_sum big_cat. Qed.

(** C3.  For an object that has a shape, the statistics of a list of arrays
    are the componentwise sum, started from the tuple of zeros that
    _empty_statistics returns, of the statistics of the arrays, and they are
    the statistics of the concatenation of the arrays; componentwise
    addition is associative and commutative with the tuple of zeros as
    identity, and the statistics of [X1 ++ X2] are the sum of those of [X1]
    and [X2]. *)
Theorem statistics_list_sum_concat (self : regression) (ds : seq ndarray) :
  has_shape self ->
  exists ss : seq stats,
    [/\ [seq _get_statistics self (Array X) | X <- ds] =
        [seq Return s | s <- ss],
        _empty_statistics self = Return (quad0 F d_y d_in),
        _get_statistics self (List [seq Array X | X <- ds]) =
        Return (foldl (@quad_add F d_y d_in) (quad0 F d_y d_in) ss),
        _get_statistics self (Array (flatten ds)) =
        Return (foldl (@quad_add F d_y d_in) (quad0 F d_y d_in) ss)
      & [/\ associative (@quad_add F d_y d_in),
            commutative (@quad_add F d_y d_in),
            left_id (quad0 F d_y d_in) (@quad_add F d_y d_in)
          & forall (X1 X2 : ndarray) s1 s2,
              _get_statistics self (Array X1) = Return s1 ->
              _get_statistics self (Array X2) = Return s2 ->
              _get_statistics self (Array (X1 ++ X2)) =
              Return (quad_add s1 s2)]].
Proof.
move=> sh.
pose st (X : ndarray) := accumulate [seq (f1, r) | r <- X & ~~ row_isnan r].
have est X : _get_statistics self (Array X) = Return (st X).
  exact: get_statistics_array.
exists [seq st X | X <- ds]; split.
- by rewrite -map_comp; apply: eq_map.
- exact: empty_statistics_has_shape.
- rewrite [LHS]/= empty_statistics_has_shape //= -map_comp.
  have -> : [seq (_get_statistics self \o Array) X | X <- ds] =
            [seq Return s | s <- [seq st X | X <- ds]].
    by rewrite -map_comp; apply: eq_map.
  exact: sum_stats_Return.
- rewrite est foldl_idx big_map /st filter_flatten map_flatten.
  rewrite accumulate_sum big_flatten /= !big_map; congr Return.
  by apply: eq_bigr => X _; rewrite accumulate_sum.
- split; [exact: quad_addA | exact: quad_addC | exact: quad_add0 |].
  move=> X1 X2 s1 s2; rewrite !est => -[<-] [<-].
  by rewrite /st filter_cat map_cat accumulate_cat.
Qed.

(** C4, as amended.  An array branch drops exactly the rows that have a NaN
    in some coordinate, on the unweighted and on the weighted path: the
    statistics are accumulated over the remaining rows, each with weight 1
    or with its own weight.  A row without NaN is kept, whether or not all
    its coordinates are finite. *)
Theorem statistics_drop_nan_rows (self : regression) (X : ndarray)
    (ws : seq fl) :
  has_shape self -> size ws = size X ->
  [/\ _get_statistics self (Array X) =
      Return (accumulate [seq (f1, r) | r <- X & ~~ row_isnan r]),
      _get_weighted_statistics self (Array X) (WArray ws) =
      Return (accumulate [seq x <- zip ws X | ~~ row_isnan x.2]),
      forall (X1 X2 : ndarray) r, row_isnan r ->
        _get_statistics self (Array (X1 ++ r :: X2)) =
        _get_statistics self (Array (X1 ++ X2))
    & forall (X1 X2 : ndarray) r, ~~ row_isnan r ->
        _get_statistics self (Array (X1 ++ r :: X2)) =
        Return (quad_add (contribution f1 r)
                  (accumulate [seq (f1, r) | r <- X1 ++ X2 & ~~ row_isnan r]))].
Proof.
move=> sh sz; split.
- exact: get_statistics_array.
- exact: get_weighted_statistics_array.
- move=> X1 X2 r nan_r; rewrite !get_statistics_array // !filter_cat /=.
  by rewrite nan_r.
- move=> X1 X2 r nan_r; rewrite !get_statistics_array // -cat1s.
  have -> : [seq r0 <- X1 ++ [:: r] ++ X2 | ~~ row_isnan r0] =
            [seq r0 <- X1 | ~~ row_isnan r0] ++ [:: r] ++
            [seq r0 <- X2 | ~~ row_isnan r0].
    by rewrite !filter_cat /= nan_r.
  rewrite filter_cat !map_cat !accumulate_cat quad_addCA; congr Return.
  by rewrite [accumulate [seq _ | _ <- [:: r]]]accumulate_sum big_seq1.
Qed.

(** C5, as amended.  For one array with a weight per row, the weighted
    statistics are the sum over the rows without NaN of the contribution of
    the row with its weight: the second moments, the sums of an affine
    model and the count [n] are all weighted.  The unweighted statistics
    are the same sum with weight 1, and the two agree when every weight
    is 1. *)
Theorem weighted_statistics_array (self : regression) (X : ndarray)
    (ws : seq fl) :
  has_shape self -> size ws = size X ->
  [/\ _get_weighted_statistics self (Array X) (WArray ws) =
      Return (\big[@quad_add F d_y d_in/quad0 F d_y d_in]_
                (x <- zip ws X | ~~ row_isnan x.2) contribution x.1 x.2),
      _get_statistics self (Array X) =
      Return (\big[@quad_add F d_y d_in/quad0 F d_y d_in]_
                (r <- X | ~~ row_isnan r) contribution f1 r)
    & _get_weighted_statistics self (Array X) (WArray (nseq (size X) f1)) =
      _get_statistics self (Array X)].
Proof.
move=> sh sz; split.
- by rewrite get_weighted_statistics_array // accumulate_sum big_filter.
- by rewrite get_statistics_array // accumulate_sum big_map big_filter.
- rewrite get_weighted_statistics_array ?size_nseq // get_statistics_array //.
  congr (Return (accumulate _)).
  elim: (X) => [|r X' IH] //=.
  by case: (row_isnan r) => /=; rewrite IH.
Qed.

(** The list branch of the weighted path does not read the weights. *)
Lemma weighted_statistics_list_ignores_weights (self : regression)
    (ds : seq data) (w : weights) :
  _get_weighted_statistics self (List ds) w = _get_statistics self (List ds).
Proof. by []. Qed.

End StatisticsTheory.

(** *** Maximum likelihood *)

Section MaxLikelihoodTheory.

Lemma f2_neq0 : (2%:R : F) != 0%R.
Proof. by rewrite pnatr_eq0. Qed.

Lemma allclose_lift_sym n (X : 'M[F]_n) :
  symmetric X -> allclose (lift X) (lift X)^T.
Proof.
move=> symX; rewrite lift_tr symX; apply/forallP=> i; apply/forallP=> j.
rewrite !mxE /= subrr normr0 addr_ge0 ?mulr_ge0 ?normr_ge0 //;
  by rewrite invr_ge0 exprn_ge0 // ler0n.
Qed.

(** The post-condition of max_likelihood, read on the current [sigma]. *)
Definition sigma_postcondition (sg : 'M[fl]_d_y) : bool :=
  allclose sg sg^T && all_pos (eigvalsh sg).

(** The statistics max_likelihood works from: those passed, or else those
    computed from the data, with the weights when there are weights. *)
Definition input_statistics (d : data) (w : option weights)
    (st : option stats) : meth stats :=
  if st is Some st then ret st
  else if w is Some w then get_weighted_statistics d w
  else get_statistics d.

Lemma max_likelihood_input (d : data) (w : option weights)
    (st : option stats) (c c0 : config) (s : stats) :
  input_statistics d w st c = (c0, Return s) ->
  max_likelihood d w st c = max_likelihood d w (Some s) c0.
Proof. by rewrite /max_likelihood /bind -/(input_statistics d w st) => ->. Qed.

Lemma input_statistics_self (d : data) (w : option weights)
    (st : option stats) (c c0 : config) (s : stats) :
  input_statistics d w st c = (c0, Return s) -> c0.1 = c.1.
Proof.
case: c => self wd; rewrite /input_statistics.
case: st => [st|]; first by case=> <-.
case: w => [w|]; rewrite /get_weighted_statistics /get_statistics /bind /=.
  by rewrite /lift_outcome; case=> <-.
by rewrite /lift_outcome; case=> <-.
Qed.

(** What max_likelihood does when the fit fails, whatever [sigma] is. *)
Lemma max_likelihood_broken_eval (d : data) (w : option weights)
    (yyT : 'M[fl]_d_y) (yxT : 'M[fl]_(d_y, d_in)) (xxT : 'M[fl]_d_in)
    (n : fl) (c : config) (sg : 'M[fl]_d_y) :
  ~~ (f0 < n)%fl \/ solve xxT yxT^T = None ->
  sigma c.1 = Some sg ->
  max_likelihood d w (Some (yyT, yxT, xxT, n)) c =
  ((set_broken true c.1, c.2),
   if sigma_postcondition sg then Return tt else Raise AssertionError).
Proof.
case: c => self wd /= fails esg.
have finish : forall b1 b2 : bool,
    (if b1 && b2 then Return tt else Raise AssertionError) =
    (if b1 then if b2 then Return tt else Raise AssertionError
     else Raise AssertionError) :> outcome unit.
  by case; case.
rewrite /max_likelihood /bind /ret /=.
case: ifP => npos; last first.
  rewrite /= /lift_outcome /= esg /= /sigma_postcondition finish.
  by case: (allclose _ _) => //=; case: (all_pos _).
case: fails => [|solve_fails]; first by rewrite npos.
rewrite /except_LinAlgError /lift_outcome solve_fails /= esg /=.
rewrite /sigma_postcondition finish.
by case: (allclose _ _) => //=; case: (all_pos _).
Qed.

(** C2, as amended.  Let the statistics max_likelihood works from, passed
    or computed from the data, be [(yyT, yxT, xxT, n)].  When [n > 0] is
    false or the linear solve raises LinAlgError, max_likelihood sets the
    broken flag, leaves every other attribute as it was, and then evaluates
    its two assertions on the current [sigma]: it returns normally when
    [sigma] passes them, which a symmetric positive definite [sigma] does,
    and raises AssertionError otherwise. *)
Theorem max_likelihood_broken (d : data) (w : option weights)
    (st : option stats) (yyT : 'M[fl]_d_y) (yxT : 'M[fl]_(d_y, d_in))
    (xxT : 'M[fl]_d_in) (n : fl) (c c0 : config) (sg : 'M[fl]_d_y) :
  input_statistics d w st c = (c0, Return (yyT, yxT, xxT, n)) ->
  ~~ (f0 < n)%fl \/ solve xxT yxT^T = None ->
  sigma c.1 = Some sg ->
  (forall S : 'M[F]_d_y, symmetric S ->
     (all_pos (eigvalsh (lift S)) <-> posdef S)) ->
  let res := max_likelihood d w st c in
  [/\ res.1 = (set_broken true c.1, c0.2),
      res.2 = if sigma_postcondition sg then Return tt
              else Raise AssertionError
    & forall Sg : 'M[F]_d_y, sg = lift Sg -> spd Sg -> res.2 = Return tt].
Proof.
move=> est fails esg eig; have e0 := input_statistics_self est.
rewrite (max_likelihood_input est).
rewrite (max_likelihood_broken_eval _ _ _ fails (sg := sg)) ?e0 //.
split=> //= Sg eSg [symS pdS].
have pos : all_pos (eigvalsh (lift Sg)) by apply/eig.
by rewrite /sigma_postcondition eSg allclose_lift_sym //= pos.
Qed.

(** C6.  Let the statistics max_likelihood works from, passed or computed
    from the data, be finite, with [n > 0] and [xxT] nonsingular; let the
    solver solve nonsingular systems.  Then max_likelihood assigns to [A]
    the matrix whose transpose solves [xxT * A^T = yxT^T], which is
    [yxT * xxT^-1] for a symmetric [xxT], and to [sigma] the symmetrization
    of [(yyT - A * yxT^T) / n] plus 1e-10 on the diagonal.  The two new
    values depend on the statistics only, no other attribute changes, and
    this holds whether or not the assertions that follow pass. *)
Theorem max_likelihood_estimate (d : data) (w : option weights)
    (st : option stats) (yyT : 'M[F]_d_y) (yxT : 'M[F]_(d_y, d_in))
    (xxT : 'M[F]_d_in) (n : F) (c c0 : config) :
  (forall (X : 'M[F]_d_in) (B : 'M[F]_(d_in, d_y)),
     X \in unitmx -> solve (lift X) (lift B) = Some (lift (invmx X *m B)%R)) ->
  input_statistics d w st c =
    (c0, Return (lift yyT, lift yxT, lift xxT, Fin n)) ->
  (0 < n)%R -> xxT \in unitmx ->
  let At := (yxT *m (invmx xxT)^T)%R in
  let R := (n^-1 *: (yyT - At *m yxT^T))%R in
  let Sg := ((10%:R ^- 10)%:M + 2%:R^-1 *: (R + R^T))%R in
  let res := max_likelihood d w st c in
  [/\ (xxT *m At^T = yxT^T)%R,
      symmetric xxT -> At = (yxT *m invmx xxT)%R,
      A res.1.1 = Some (lift At) /\ sigma res.1.1 = Some (lift Sg),
      res.1 = (set_sigma (Some (lift Sg)) (set_A (Some (lift At)) c.1), c0.2)
    & res.2 = if sigma_postcondition (lift Sg) then Return tt
              else Raise AssertionError].
Proof.
move=> solve_unit est npos uX At R Sg; have e0 := input_statistics_self est.
rewrite (max_likelihood_input est) -e0 /=.
case: c0 {est e0} => self wd /=.
have eAt : ((invmx xxT *m yxT^T)^T = At)%R by rewrite trmx_mul trmxK.
have -> : max_likelihood d w (Some (lift yyT, lift yxT, lift xxT, Fin n))
            (self, wd) =
          ((set_sigma (Some (lift Sg)) (set_A (Some (lift At)) self), wd),
           if sigma_postcondition (lift Sg) then Return tt
           else Raise AssertionError).
  rewrite /max_likelihood /bind /ret /= npos lift_tr.
  rewrite /except_LinAlgError /lift_outcome solve_unit //= lift_tr eAt.
  rewrite lift_dot lift_sub lift_divs ?gt_eqF // -/R.
  rewrite /symmetrize lift_tr lift_add lift_divs ?f2_neq0 //.
  rewrite lift_scale_eye lift_add -/Sg /=.
  rewrite /sigma_postcondition.
  by case: (allclose _ _) => //=; case: (all_pos _).
split=> //=.
- by rewrite /At trmx_mul trmxK mulKVmx.
- by move=> symX; rewrite /At trmx_inv symX.
Qed.

End MaxLikelihoodTheory.

(** *** The non-conjugate sampler *)

Section NonconjTheory.

(** The number of sweeps: the argument [niter] unless it is None or 0, and
    the attribute [niter] then. *)
Definition sweeps (niter_arg : option nat) (self : regression) : nat :=
  if niter_arg is Some k.+1 then k.+1 else niter self.

(** The two draws from the priors, made when there is no data. *)
Definition prior_draws (c : config) : config * outcome unit :=
  let: (self, wd) := c in
  let J := J_0 self in
  let h := mxvec (h_0 self) in
  let: (v, g1) := sample_gaussian J h (gen wd) in
  let: (sg, g2) := sample_invwishart (S_0 self) (nu_0 self) g1 in
  ((set_sigma (Some sg) (set_A (Some (vec_mx v)) self),
    World g2 (trace wd ++ [:: Draw_gaussian J h;
                              Draw_invwishart (S_0 self) (nu_0 self)])),
   Return tt).

(** One sweep as the specification words it: [A] given [sigma] from the
    Gaussian with precision [J_0 + kron(sigma^-1, xxT)] and potential
    [h_0 + sigma^-1 * yxT], then [sigma] given the new [A] from the
    inverse-Wishart with scale
    [S_0 + yyT - yxT * A^T - A * yxT^T + A * xxT * A^T] and [nu_0 + n]
    degrees of freedom.  A [sigma] that is None or that np.linalg.inv
    rejects stops the sweep with LinAlgError. *)
Definition gibbs_sweep (st : stats) (c : config) : config * outcome unit :=
  let: (yyT, yxT, xxT, n) := st in
  let: (self, wd) := c in
  if (if sigma self is Some sg then inv sg else None) is Some sginv then
    let J := J_0 self + kron sginv xxT in
    let h := mxvec (h_0 self + sginv *m yxT) in
    let: (v, g1) := sample_gaussian J h (gen wd) in
    let A1 := vec_mx v in
    let S :=
      S_0 self + yyT - yxT *m A1^T - A1 *m yxT^T + A1 *m xxT *m A1^T in
    let nu := (nu_0 self + n)%fl in
    let: (sg1, g2) := sample_invwishart S nu g1 in
    ((set_sigma (Some sg1) (set_A (Some A1) self),
      World g2 (trace wd ++ [:: Draw_gaussian J h; Draw_invwishart S nu])),
     Return tt)
  else (c, Raise LinAlgError).

Fixpoint gibbs_sweeps (k : nat) (st : stats) (c : config) :
    config * outcome unit :=
  if k is k'.+1 then
    let: (c', r) := gibbs_sweep st c in
    if r is Return _ then gibbs_sweeps k' st c' else (c', r)
  else (c, Return tt).

Definition is_statistics_call (e : event) : bool :=
  match e with
  | Call_get_statistics _ | Call_get_weighted_statistics _ _ => true
  | _ => false
  end.

Lemma gibbs_sweep_calls st c :
  count is_statistics_call (trace (gibbs_sweep st c).1.2) =
  count is_statistics_call (trace c.2).
Proof.
case: st => [[[yyT yxT] xxT] n]; case: c => self wd; rewrite /gibbs_sweep.
case: (if sigma self is Some sg then inv sg else None) => [sginv|] //.
case: (sample_gaussian _ _ _) => v g1; case: (sample_invwishart _ _ _) => sg g2.
by rewrite /= count_cat /= !addn0.
Qed.

Lemma gibbs_sweeps_calls k st c :
  count is_statistics_call (trace (gibbs_sweeps k st c).1.2) =
  count is_statistics_call (trace c.2).
Proof.
elim: k c => [|k IH] c //=.
by have := gibbs_sweep_calls st c; case: (gibbs_sweep st c) => c' [[]|e] /= <-.
Qed.

Lemma sweep_body (yyT : 'M[fl]_d_y) (yxT : 'M[fl]_(d_y, d_in))
    (xxT : 'M[fl]_d_in) (n : fl) (c : config) :
  bind get_self (fun self =>
    bind (_resample_A xxT yxT (sigma self)) (fun _ =>
      bind get_self (fun self =>
        _resample_sigma xxT yxT yyT n (A self)))) c =
  gibbs_sweep (yyT, yxT, xxT, n) c.
Proof.
case: c => self wd; rewrite /gibbs_sweep /bind /_resample_A /_resample_sigma /=.
rewrite /bind /lift_outcome /draw /=.
case: (if sigma self is Some sg then inv sg else None) => [sginv|] //=.
case: (sample_gaussian _ _ _) => v g1 /=.
case: (sample_invwishart _ _ _) => sg g2 /=.
by rewrite -!cats1 -catA.
Qed.

Lemma gibbs_sweepsS k st c :
  gibbs_sweeps k.+1 st c =
  let: (c', r) := gibbs_sweep st c in
  if r is Return _ then gibbs_sweeps k st c' else (c', r).
Proof. by []. Qed.

Lemma for_rangeS k (body : meth unit) :
  for_range k.+1 body = bind body (fun _ => for_range k body).
Proof. by []. Qed.

Lemma for_range_sweeps k (yyT : 'M[fl]_d_y) (yxT : 'M[fl]_(d_y, d_in))
    (xxT : 'M[fl]_d_in) (n : fl) (c : config) :
  for_range k
    (bind get_self (fun self =>
       bind (_resample_A xxT yxT (sigma self)) (fun _ =>
         bind get_self (fun self =>
           _resample_sigma xxT yxT yyT n (A self))))) c =
  gibbs_sweeps k (yyT, yxT, xxT, n) c.
Proof.
elim: k c => [|k IH] c //.
rewrite for_rangeS {1}/bind sweep_body gibbs_sweepsS.
by case: (gibbs_sweep _ c) => c' [[]|e] //; rewrite IH.
Qed.

(** C7.  With data, resample computes the statistics once and then runs the
    sweeps of the specification, as many as the argument [niter] says (the
    attribute [niter] when the argument is None or 0); the sweeps make no
    further call to the statistics engine.  Without data it computes no
    statistics and draws [A] from the Gaussian [(J_0, h_0)] and [sigma]
    from the inverse-Wishart [(S_0, nu_0)]. *)
Theorem nonconj_resample_sweeps (d : data) (niter_arg : option nat)
    (c : config) :
  (getdatasize d = 0%N ->
     nonconj_resample d niter_arg c = prior_draws c /\
     count is_statistics_call (trace (nonconj_resample d niter_arg c).1.2) =
     count is_statistics_call (trace c.2)) /\
  (getdatasize d != 0%N ->
   forall st : stats, _get_statistics c.1 d = Return st ->
     nonconj_resample d niter_arg c =
     gibbs_sweeps (sweeps niter_arg c.1) st
       (c.1, World (gen c.2) (rcons (trace c.2) (Call_get_statistics d))) /\
     count is_statistics_call (trace (nonconj_resample d niter_arg c).1.2) =
     (count is_statistics_call (trace c.2)).+1).
Proof.
case: c => self wd; split.
  move=> e0.
  have -> : nonconj_resample d niter_arg (self, wd) = prior_draws (self, wd).
    rewrite /nonconj_resample /prior_draws /bind /= e0 /= /draw /=.
    case: (sample_gaussian _ _ _) => v g1 /=.
    case: (sample_invwishart _ _ _) => sg g2 /=.
    by rewrite -!cats1 -catA.
  split=> //; rewrite /prior_draws.
  case: (sample_gaussian _ _ _) => v g1; case: (sample_invwishart _ _ _) => sg g2.
  by rewrite /= count_cat /= !addn0.
move=> /negbTE n0 [[[yyT yxT] xxT] n] est.
have -> : nonconj_resample d niter_arg (self, wd) =
          gibbs_sweeps (sweeps niter_arg self) (yyT, yxT, xxT, n)
            (self, World (gen wd) (rcons (trace wd) (Call_get_statistics d))).
  rewrite /nonconj_resample {1}/bind /= n0 /get_statistics.
  rewrite {1}/bind /= /lift_outcome est /=.
  exact: for_range_sweeps.
split=> //; rewrite gibbs_sweeps_calls /= -cats1 count_cat /= addn0 addn1.
by [].
Qed.

End NonconjTheory.

(** *** The ARD sampler *)

Section ARDTheory.

(** The entries of a 1-d array of integers, in order. *)
Definition entries (v : 'rV[nat]_nb) : seq nat :=
  [seq v 0%R i | i <- enum 'I_nb].

Lemma size_entries v : size (entries v) = nb.
Proof. by rewrite size_map size_enum_ord. Qed.

Lemma nth_entries v (i : 'I_nb) : nth 0%N (entries v) i = v 0%R i.
Proof.
by rewrite (nth_map i) ?size_enum_ord // nth_ord_enum.
Qed.

Lemma sumn_take (s : seq nat) (k : nat) :
  (k <= size s)%N -> sumn (take k s) = (\sum_(0 <= j < k) nth 0 s j)%N.
Proof.
elim: s k => [|x s IH] [|k] //=; try by rewrite big_geq.
move=> /IH ->.
by rewrite big_nat_recl.
Qed.

Lemma cumsum_take v (strict : bool) (i : 'I_nb) :
  cumsum v strict 0%R i = sumn (take (if strict then i : nat else i.+1) (entries v)).
Proof.
rewrite mxE sumn_take ?size_entries;
  first by case: strict; rewrite /= ?(ltnW (ltn_ord i)) ?ltn_ord.
pose G k := nth 0%N (entries v) k.
rewrite (eq_bigr (fun k : 'I_nb => G k));
  first by move=> k _; rewrite /G nth_entries.
rewrite -(big_mkord (fun k => if strict then (k < i)%N else (k <= i)%N) G).
case: strict.
  by rewrite (big_nat_widen 0 i nb) ?(ltnW (ltn_ord i)).
by rewrite (big_nat_widen 0 i.+1 nb) ?ltn_ord.
Qed.

Lemma nth_flatten_nseq (T : Type) (x0 : T) (sz : seq nat) (val : seq T)
    (k j : nat) :
  size val = size sz -> (k < size sz)%N ->
  (sumn (take k sz) <= j < sumn (take k.+1 sz))%N ->
  nth x0 (flatten [seq nseq p.1 p.2 | p <- zip sz val]) j = nth x0 val k.
Proof.
elim: sz val k j => [|n sz IH] [|x val] k j //= [esz].
rewrite nth_cat size_nseq; case: k => [|k] /=.
  by rewrite take0 /= addn0 => _ lt_j; rewrite lt_j nth_nseq lt_j.
rewrite ltnS => ksz /andP[le_j lt_j].
have le_n : (n <= j)%N := leq_trans (leq_addr _ _) le_j.
rewrite ltnNge le_n /=.
apply: IH => //.
by rewrite leq_subRL // le_j ltn_subLR.
Qed.

Lemma np_repeat_zip (ks : 'rV[fl]_nb) (sizes : 'rV[nat]_nb) :
  np_repeat ks sizes =
  flatten [seq nseq p.1 p.2
          | p <- zip (entries sizes) [seq ks 0 i | i <- enum 'I_nb]].
Proof. by rewrite /np_repeat /entries zip_map -map_comp. Qed.

Lemma size_np_repeat (ks : 'rV[fl]_nb) (sizes : 'rV[nat]_nb) :
  size (np_repeat ks sizes) = (\sum_(i < nb) sizes 0%R i)%N.
Proof.
rewrite /np_repeat size_flatten /shape -map_comp sumnE big_map big_enum /=.
by apply: eq_bigr => i _; rewrite size_nseq.
Qed.

Lemma nth_np_repeat (ks : 'rV[fl]_nb) (sizes : 'rV[nat]_nb) (i : 'I_nb)
    (j : nat) :
  (cumsum sizes true 0%R i <= j < cumsum sizes false 0%R i)%N ->
  nth f0 (np_repeat ks sizes) j = ks 0 i.
Proof.
rewrite !cumsum_take np_repeat_zip => bounds.
rewrite (@nth_flatten_nseq _ f0 (entries sizes) _ i j)
  ?size_map ?size_enum_ord ?size_entries //.
  by rewrite -enumT size_enum_ord.
by rewrite (nth_map i) ?size_enum_ord // nth_ord_enum.
Qed.


(** The shape and the rate of the Gamma distribution of each block: the
    prior [a_i], [b_i] without [diag], and with [diag] the shape
    [a_i + D_out * blocksize_i / 2] and the rate [b_i] plus the sum of
    [diag] over the columns of block [i], those from the sum of the sizes of
    the blocks before [i] up to that sum plus the size of block [i]. *)
Definition gamma_shape (diag : option 'rV[fl]_d_in) (self : regression) :
    'rV[fl]_nb :=
  \row_i (if diag then
            (a self 0 i + of_nat F (d_y * blocksizes self 0 i) / f2)%fl
          else a self 0 i).

Definition gamma_rate (diag : option 'rV[fl]_d_in) (self : regression) :
    'rV[fl]_nb :=
  \row_i (if diag is Some dg then
            (b self 0 i +
             \big[@fadd F/f0]_(j < d_in |
                (cumsum (blocksizes self) true 0%R i <= j <
                 cumsum (blocksizes self) false 0%R i)%N) dg 0 j)%fl
          else b self 0 i).

Lemma resample_K_eval (diag : option 'rV[fl]_d_in) (self : regression)
    (wd : world) :
  (diag -> has_shape self) ->
  starts self = cumsum (blocksizes self) true ->
  stops self = cumsum (blocksizes self) false ->
  (\sum_(i < nb) blocksizes self 0%R i)%N = d_in ->
  let shape := gamma_shape diag self in
  let scale : 'rV[fl]_nb := \row_i (f1 / gamma_rate diag self 0 i)%fl in
  resample_K diag (self, wd) =
  let: (g, gn) := random_gamma shape scale (gen wd) in
  let K :=
    np_diag d_in (np_repeat (map_mx (fun x => f1 / x)%fl g) (blocksizes self)) in
  let wd' := World gn (rcons (trace wd) (Draw_gamma shape scale)) in
  match _standard_to_natural (nu_0 self) (S_0 self) (M_0 self) K with
  | Return nat =>
      ((set_natural_hypparam (Some nat) (set_K_0 K self), wd'), Return tt)
  | Raise e => ((set_K_0 K self, wd'), Raise e)
  end.
Proof.
move=> sh est esp esum shape scale.
have eab (dg : option 'rV[fl]_d_in) : (dg -> has_shape self) ->
    (if dg is Some diag0 then
       bind (lift_outcome (D_out self)) (fun D =>
         ret (a self +
              map_mx (fun k : nat => (of_nat F (D * k) / f2)%fl)
                     (blocksizes self),
              b self +
              (\row_i slice_sum diag0 (starts self 0 i) (stops self 0 i))))
     else ret (a self, b self)) (self, wd) =
    ((self, wd),
     Return (gamma_shape dg self,
             (\row_i gamma_rate dg self 0 i : 'rV[fl]_nb))).
  case: dg => [dg|] shd /=.
    rewrite /bind /lift_outcome D_out_has_shape ?shd //= /ret.
    congr (_, Return (_, _)); apply/rowP=> i; rewrite !mxE //.
    by rewrite /slice_sum est esp !mxE.
  by rewrite /ret; congr (_, Return (_, _)); apply/rowP=> i; rewrite !mxE.
rewrite /resample_K {1}/bind /= {1}/bind eab //= /bind /draw /=.
have -> : map_mx (fun x => (f1 / x)%fl) (\row_i gamma_rate diag self 0 i) =
          scale.
  by apply/rowP=> i; rewrite !mxE.
case: (random_gamma shape scale (gen wd)) => g gn /=.
rewrite size_np_repeat esum eqxx /= /lift_outcome.
by case: (_standard_to_natural _ _ _ _).
Qed.

(** C8.  For an object whose [starts] and [stops] are the cumulative sums
    of its block sizes and whose blocks cover the [D_in] columns, resample_K
    makes one Gamma draw, with shape [a_i] and scale [1/b_i] for each block
    without [diag], and with shape [a_i + D_out * blocksize_i / 2] and scale
    one over [b_i] plus the sum of [diag] over the block with [diag];
    [K_0] becomes the diagonal matrix that has the inverse of the draw of
    block [i] in every column of block [i]; and [natural_hypparam] becomes
    what _standard_to_natural returns at [(nu_0, S_0, M_0, K_0)] for the new
    [K_0], when it returns. *)
Theorem resample_K_blocks (diag : option 'rV[fl]_d_in) (c : config) :
  (diag -> has_shape c.1) ->
  starts c.1 = cumsum (blocksizes c.1) true ->
  stops c.1 = cumsum (blocksizes c.1) false ->
  (\sum_(i < nb) blocksizes c.1 0%R i)%N = d_in ->
  let shape := gamma_shape diag c.1 in
  let scale : 'rV[fl]_nb := \row_i (f1 / gamma_rate diag c.1 0 i)%fl in
  let g := (random_gamma shape scale (gen c.2)).1 in
  let res := resample_K diag c in
  [/\ trace res.1.2 = rcons (trace c.2) (Draw_gamma shape scale),
      forall (i : 'I_nb) (j : 'I_d_in),
        (starts c.1 0%R i <= j < stops c.1 0%R i)%N ->
        K_0 res.1.1 j j = (f1 / g 0 i)%fl,
      forall j j' : 'I_d_in, j != j' -> K_0 res.1.1 j j' = f0
    & match _standard_to_natural (nu_0 c.1) (S_0 c.1) (M_0 c.1)
              (K_0 res.1.1) with
      | Return nat =>
          natural_hypparam res.1.1 = Some nat /\ res.2 = Return tt
      | Raise e =>
          natural_hypparam res.1.1 = natural_hypparam c.1 /\
          res.2 = Raise e
      end].
Proof.
case: c => self wd /= sh est esp esum.
rewrite resample_K_eval //.
case: (random_gamma _ _ _) => g gn /=.
set K := np_diag _ _.
have eK : K_0 (match _standard_to_natural (nu_0 self) (S_0 self) (M_0 self) K
               with
               | Return nat =>
                   ((set_natural_hypparam (Some nat) (set_K_0 K self),
                     World gn (rcons (trace wd)
                       (Draw_gamma (gamma_shape diag self)
                          (\row_i (f1 / gamma_rate diag self 0 i)%fl)))),
                    Return tt)
               | Raise e =>
                   ((set_K_0 K self,
                     World gn (rcons (trace wd)
                       (Draw_gamma (gamma_shape diag self)
                          (\row_i (f1 / gamma_rate diag self 0 i)%fl)))),
                    Raise e)
               end).1.1 = K.
  by case: (_standard_to_natural _ _ _ _).
rewrite eK; split.
- by case: (_standard_to_natural _ _ _ _).
- move=> i j; rewrite est esp => bounds.
  by rewrite /K mxE eqxx (nth_np_repeat _ bounds) mxE.
- by move=> j j' /negbTE ne; rewrite /K mxE ne.
- by case: (_standard_to_natural _ _ _ _).
Qed.


(** Induction on data, through the lists. *)
Lemma data_induction (P : data -> Prop) :
  (forall X, P (Array X)) ->
  (forall ds, foldr (fun d acc => P d /\ acc) True ds -> P (List ds)) ->
  forall d, P d.
Proof.
move=> HA HL; fix IH 1; case=> [X|ds]; first exact: HA.
apply: HL; elim: ds => [|d ds IHds]; first exact: I.
split; [exact: IH | exact: IHds].
Qed.

Lemma shape_matE self :
  shape_mat self =
  if has_shape self then Return (d_y, d_in) else Raise AttributeError.
Proof.
by rewrite /shape_mat /has_shape; case: (A self); case: (natural_hypparam self).
Qed.

(** The statistics engine reads the object for its shape only. *)
Lemma get_statistics_shape (s1 s2 : regression) (d : data) :
  has_shape s1 = has_shape s2 ->
  _get_statistics s1 d = _get_statistics s2 d.
Proof.
move=> esh; elim/data_induction: d => [X|ds IH] /=.
  by rewrite /D_out !shape_matE esh.
rewrite /_empty_statistics /D_in /D_out !shape_matE esh.
suff -> : [seq _get_statistics s1 d' | d' <- ds] =
          [seq _get_statistics s2 d' | d' <- ds] by [].
by elim: ds IH => [|d ds IHds] //= [-> /IHds ->].
Qed.

(** The object after the setter of [ARDRegression.parameters]. *)
Definition with_parameters (self : regression) (A' : 'M[fl]_(d_y, d_in))
    (sg' : 'M[fl]_d_y) (K' : 'M[fl]_d_in) : regression :=
  Regression (Some A') (Some sg') (natural_hypparam self) (broken self)
    (niter self) (nu_0 self) (S_0 self) (h_0 self) (J_0 self) (a self)
    (b self) (blocksizes self) (starts self) (stops self) (M_0 self) K'.

Lemma resample_with_parameters self wd A' sg' K' (d : data)
    (st : option stats) :
  resample d st (with_parameters self A' sg' K', wd) =
  let res := resample d st (with_parameters self A' sg' (K_0 self), wd) in
  ((set_K_0 K' res.1.1, res.1.2), res.2).
Proof.
rewrite /resample /bind.
have -> : (if st is Some st0 then ret st0 else get_statistics d)
            (with_parameters self A' sg' K', wd) =
          let res := (if st is Some st0 then ret st0 else get_statistics d)
                       (with_parameters self A' sg' (K_0 self), wd) in
          ((set_K_0 K' res.1.1, res.1.2), res.2).
  case: st => [st|] //=.
  rewrite /get_statistics /bind /= /lift_outcome.
  by rewrite (get_statistics_shape
                (s2 := with_parameters self A' sg' (K_0 self))).
case: ((if st is Some st0 then ret st0 else get_statistics d) _) => c1 [s|e] //=.
case: c1 => self1 wd1 /=.
rewrite /resample_mniw /bind /= /lift_outcome.
case: (natural_hypparam self1) => [nat1|] //=.
case: (_natural_to_standard _) => [[[[nu S_] M] K]|e] //=.
rewrite /draw /=.
by case: (sample_mniw _ _ _ _ _) => As g.
Qed.

(** When resample_K returns, [natural_hypparam] holds the natural form of
    [(nu_0, S_0, M_0, K_0)] for the [K_0] it has just set. *)
Lemma resample_K_natural (diag : option 'rV[fl]_d_in) (c c' : config) :
  resample_K diag c = (c', Return tt) ->
  exists2 nat0,
    _standard_to_natural (nu_0 c'.1) (S_0 c'.1) (M_0 c'.1) (K_0 c'.1) =
    Return nat0
    & natural_hypparam c'.1 = Some nat0.
Proof.
case: c => self wd; rewrite /resample_K {1}/bind /= {1}/bind.
case: (_ (self, wd)) => -[self1 wd1] [[a1 b1]|e] //=.
rewrite /bind /draw /=; case: (random_gamma _ _ _) => g gn /=.
case: ifP => _ //=; rewrite /lift_outcome /=.
case e : (_standard_to_natural _ _ _ _) => [nat0|ex] //= [<-] /=.
by exists nat0.
Qed.

(** C10.  The setter of [ARDRegression.parameters] assigns [A], [sigma] and
    [K_0] and nothing else: [natural_hypparam] is as before.  A conjugate
    resample that follows is the one that would follow with the old [K_0]
    in place, up to the field [K_0] itself: with natural hyperparameters
    [nat0], those of the old [K_0], and statistics [st] it draws from the
    standard form of [nat0 + st].  A call of resample_K that returns leaves
    in [natural_hypparam] the natural form of the [K_0] it has set. *)
Theorem ard_set_parameters_keeps_natural (A' : 'M[fl]_(d_y, d_in))
    (sg' : 'M[fl]_d_y) (K' : 'M[fl]_d_in) (c : config) (d : data) :
  let c1 := (with_parameters c.1 A' sg' K', c.2) in
  [/\ ard_set_parameters (A', sg', K') c = (c1, Return tt),
      [/\ A c1.1 = Some A', sigma c1.1 = Some sg', K_0 c1.1 = K' &
          natural_hypparam c1.1 = natural_hypparam c.1],
      forall st : option stats,
        resample d st c1 =
        let res := resample d st (with_parameters c.1 A' sg' (K_0 c.1), c.2) in
        ((set_K_0 K' res.1.1, res.1.2), res.2),
      forall (nat0 st : stats) nu S M K,
        _standard_to_natural (nu_0 c.1) (S_0 c.1) (M_0 c.1) (K_0 c.1) =
          Return nat0 ->
        natural_hypparam c.1 = Some nat0 ->
        _natural_to_standard (quad_add nat0 st) = Return (nu, S, M, K) ->
        let draw := sample_mniw nu S M K (gen c.2) in
        resample d (Some st) c1 =
        ((with_parameters c.1 draw.1.1 draw.1.2 K',
          World draw.2 (rcons (trace c.2) (Draw_mniw nu S M K))),
         Return tt)
    & forall (diag : option 'rV[fl]_d_in) (c2 : config),
        resample_K diag c1 = (c2, Return tt) ->
        exists2 nat2,
          _standard_to_natural (nu_0 c2.1) (S_0 c2.1) (M_0 c2.1) (K_0 c2.1) =
          Return nat2
          & natural_hypparam c2.1 = Some nat2].
Proof.
case: c => self wd /=; split=> //.
- by move=> st; rewrite resample_with_parameters.
- move=> nat0 st nu S M K _ enat estd.
  rewrite /resample /bind /= /resample_mniw /bind /= /lift_outcome enat /= estd.
  by rewrite /draw /=; case: (sample_mniw _ _ _ _ _) => As g.
- by move=> diag c2; exact: resample_K_natural.
Qed.

End ARDTheory.

End Classes.

End Model.

(** ** A reference numeric layer

    An instance of the numeric layer in exact arithmetic, used to run the
    model on concrete inputs: inversion and solving through the inverse
    matrix over the field, eigenvalues read off the diagonal (exact for
    diagonal matrices, and so for matrices with one row), and samplers
    that return one of their parameters and count the draws. *)

Section Reference.
Variable F : realFieldType.
Local Notation fl := (float F).

(** The matrix of an array whose entries are all finite. *)
Definition lower m n (X : 'M[fl]_(m, n)) : option 'M[F]_(m, n) :=
  if [forall i, forall j, isfinite (X i j)]
  then Some (\matrix_(i, j) (if X i j is Fin x then x else 0%R))
  else None.

Definition inv_ref n (X : 'M[fl]_n) : option 'M[fl]_n :=
  if lower X is Some K then
    if K \in unitmx then Some (lift (invmx K)) else None
  else None.

Definition solve_ref n m (X : 'M[fl]_n) (B : 'M[fl]_(n, m)) :
    option 'M[fl]_(n, m) :=
  match lower X, lower B with
  | Some K, Some C =>
      if K \in unitmx then Some (lift (invmx K *m C)%R) else None
  | _, _ => None
  end.

Definition eigvalsh_ref n (X : 'M[fl]_n) : seq fl :=
  [seq X i i | i <- enum 'I_n].

Definition sample_gaussian_ref k (J : 'M[fl]_k) (h : 'rV[fl]_k) (g : nat) :
    'rV[fl]_k * nat :=
  (h, g.+1).

Definition sample_invwishart_ref n (S : 'M[fl]_n) (nu : fl) (g : nat) :
    'M[fl]_n * nat :=
  (S, g.+1).

Definition sample_mniw_ref p q (nu : fl) (S : 'M[fl]_p) (M : 'M[fl]_(p, q))
    (K : 'M[fl]_q) (g : nat) : ('M[fl]_(p, q) * 'M[fl]_p) * nat :=
  ((M, S), g.+1).

Definition random_gamma_ref n (shape scale : 'rV[fl]_n) (g : nat) :
    'rV[fl]_n * nat :=
  (shape, g.+1).

Lemma lower_lift m n (X : 'M[F]_(m, n)) : lower (lift X) = Some X.
Proof.
rewrite /lower; case: ifPn => [_|/negP[]].
  by congr Some; apply/matrixP=> i j; rewrite !mxE.
by apply/forallP=> i; apply/forallP=> j; rewrite !mxE.
Qed.

Lemma inv_ref_spd n (K : 'M[F]_n) :
  spd K -> inv_ref (lift K) = Some (lift (invmx K)).
Proof. by case=> _ /posdef_unit uK; rewrite /inv_ref lower_lift uK. Qed.

Lemma solve_ref_unit n m (X : 'M[F]_n) (B : 'M[F]_(n, m)) :
  X \in unitmx -> solve_ref (lift X) (lift B) = Some (lift (invmx X *m B)%R).
Proof. by move=> uX; rewrite /solve_ref !lower_lift uX. Qed.

Lemma posdef11 (S : 'M[F]_1) : posdef S <-> (0 < S 0 0)%R.
Proof.
split=> [pd|S_gt0 x x0].
  have := pd 1%:M (matrix_nonzero1 _ _).
  by rewrite mul1mx trmx1 mulmx1.
rewrite [x]mx11_scalar [S]mx11_scalar tr_scalar_mx -!scalar_mxM mxE eqxx mulr1n.
rewrite mulrAC -expr2 mulr_gt0 // ?mxE ?eqxx ?mulr1n //.
rewrite lt0r sqr_ge0 andbT expf_neq0 //.
by apply: contra x0 => /eqP e; rewrite [x]mx11_scalar e; apply/eqP/matrixP=> i j; rewrite !mxE mul0rn.
Qed.

Lemma all_pos_eigvalsh_ref11 (S : 'M[F]_1) :
  all_pos (eigvalsh_ref (lift S)) = (0 < S 0 0)%R.
Proof.
rewrite /eigvalsh_ref enum_ordSl /=.
have -> : enum 'I_0 = [::] by apply: size0nil; rewrite size_enum_ord.
by rewrite /= andbT !mxE.
Qed.

Lemma eigvalsh_ref11 (S : 'M[F]_1) :
  symmetric S -> (all_pos (eigvalsh_ref (lift S)) <-> posdef S).
Proof. by move=> _; rewrite all_pos_eigvalsh_ref11; split=> /posdef11. Qed.

Lemma spd_scalar n (e : F) : (0 < e)%R -> spd (e%:M : 'M[F]_n).
Proof.
move=> e0; split; first exact: tr_scalar_mx.
move=> x x0; rewrite mul_mx_scalar -scalemxAl mxE mulr_gt0 //.
have [k xk] : exists k, x 0 k != 0%R.
  apply/existsP; rewrite -negb_forall; apply: contra x0 => /forallP x_eq0.
  by apply/eqP/rowP=> j; rewrite mxE; apply/eqP.
have ge0 i : (0 <= x 0 i * x^T i 0)%R by rewrite mxE -expr2 sqr_ge0.
rewrite mxE lt0r sumr_ge0 ?andbT // psumr_neq0 //.
apply/hasP; exists k; rewrite ?mem_index_enum //=.
by rewrite mxE -expr2 lt0r sqr_ge0 andbT expf_neq0.
Qed.

End Reference.

(** ** Concrete runs

    The model over the rationals with one input, one output, no offset and
    one block, on the reference numeric layer. *)

Definition example_blocksizes : 'rV[nat]_1 := const_mx 1%N.

Definition example_model (sg : option 'M[float rat]_1) :
    regression rat 1 0 false 1 :=
  Regression (affine := false) (d_x := 1)
    (Some (lift 1%:M)) sg None false 2 (Fin 3%:R) (lift 1%:M) (lift 1%:M)
    (const_mx (Fin 1)) (const_mx (Fin 1)) (const_mx (Fin 1))
    example_blocksizes (cumsum example_blocksizes true)
    (cumsum example_blocksizes false) (lift 1%:M) (lift 1%:M).

Definition example_world : world rat nat 1 0 false 1 := World 0%N [::].

Definition example_config (sg : option 'M[float rat]_1) :
    config rat nat 1 0 false 1 :=
  (example_model sg, example_world).

(** Rows [x, y] of a data array. *)
Definition example_row (x y : float rat) : 'rV[float rat]_(1 + 1) :=
  row_mx (const_mx x) (const_mx y).

Lemma spd_example (k : nat) : spd ((k.+1%:R)%:M : 'M[rat]_1).
Proof. by apply: spd_scalar; rewrite ltr0n. Qed.

Lemma natural_standard_roundtrip_witness :
  let S : 'M[rat]_1 := (2%:R)%:M in
  let K : 'M[rat]_1 := (3%:R)%:M in
  let M : 'M[rat]_1 := 1%:M in
  [/\ spd S, spd K
    & obind (_standard_to_natural (@inv_ref rat) (Fin 5%:R)
               (lift S) (lift M) (lift K))
            (@_natural_to_standard rat (@inv_ref rat) (@eigvalsh_ref rat)
               1 1) =
      Return (Fin 5%:R, lift S, lift M, lift (K + (10%:R ^- 8)%:M)%R)].
Proof.
split; [exact: (spd_example 1) | exact: (spd_example 2) |].
exact: (natural_standard_roundtrip (@eigvalsh_ref11 rat) (@eigvalsh_ref11 rat)
          (@inv_ref_spd rat 1) (Fin 5%:R) 1%:M (spd_example 1) (spd_example 2)).
Defined.

Lemma natural_to_standard_assertions_witness :
  let C : 'M[float rat]_1 := lift (2%:R)%:M in
  let K0 : 'M[float rat]_1 := lift (invmx (2%:R)%:M) in
  inv_ref C = Some K0 /\
  forall e,
    _natural_to_standard (@inv_ref rat) (@eigvalsh_ref rat)
      (lift 1%:M : 'M[float rat]_1, lift 1%:M : 'M[float rat]_1, C, Fin 1) =
    Raise e -> e = AssertionError.
Proof.
have eK0 := inv_ref_spd (spd_example 1).
split=> //.
by have [] := natural_to_standard_assertions (@eigvalsh_ref11 rat)
                (@eigvalsh_ref11 rat) (lift 1%:M) (lift 1%:M) (Fin 1) eK0.
Defined.

Lemma row_isnan_example (x y : float rat) :
  row_isnan (example_row x y) = isnan x || isnan y.
Proof.
apply/existsP/orP => [[j]|[nx|ny]].
- by rewrite mxE; case: (split j) => k; rewrite mxE; [left | right].
- by exists (lshift 1 ord0); rewrite row_mxEl mxE.
- by exists (rshift 1 ord0); rewrite row_mxEr mxE.
Qed.

Lemma row_nonfinite_example (x y : float rat) :
  row_nonfinite (example_row x y) = ~~ isfinite x || ~~ isfinite y.
Proof.
apply/existsP/orP => [[j]|[nx|ny]].
- by rewrite mxE; case: (split j) => k; rewrite mxE; [left | right].
- by exists (lshift 1 ord0); rewrite row_mxEl mxE.
- by exists (rshift 1 ord0); rewrite row_mxEr mxE.
Qed.

Lemma statistics_list_sum_concat_witness :
  let X1 := [:: example_row (Fin 1) (Fin 2%:R)] in
  let X2 := [:: example_row (Fin 3%:R) (Fin 4%:R)] in
  let self := example_model None in
  has_shape self /\
  _get_statistics self (List [:: Array X1; Array X2]) =
  _get_statistics self (Array (X1 ++ X2)).
Proof.
move=> X1 X2 self; split=> //.
have [ss [_ _ eL eA _]] :=
  statistics_list_sum_concat [:: X1; X2] (erefl : has_shape self).
exact: etrans eL (esym eA).
Defined.

Lemma statistics_drop_nan_rows_witness :
  let r := example_row (Fin 1) (Fin 2%:R) in
  let rnan := example_row NaN (Fin 1) in
  let X := [:: rnan; r] in
  let ws : seq (float rat) := [:: Fin 1; Fin 1] in
  let self := example_model None in
  [/\ has_shape self, size ws = size X
    & _get_statistics self (Array [:: rnan; r]) =
      _get_statistics self (Array [:: r])].
Proof.
move=> r rnan X ws self; split=> //.
have [_ _ drop _] :=
  statistics_drop_nan_rows (erefl : has_shape self) (erefl : size ws = size X).
by apply: (drop [::] [:: r] rnan); rewrite row_isnan_example.
Defined.

(** C4, as stated, fails: a row with an infinite coordinate is not dropped;
    the statistics with it are not the statistics without it. *)
Lemma infinite_row_not_dropped :
  let r := example_row PInf (Fin 1) in
  let self := example_model None in
  row_nonfinite r /\
  _get_statistics self (Array [:: r]) <> _get_statistics self (Array [::]).
Proof.
move=> r self; split; first by rewrite row_nonfinite_example.
rewrite !get_statistics_array //= row_isnan_example /=.
rewrite /accumulate /partition_statmat => -[_ _ _].
by rewrite big_seq1 big_nil => -[] /eqP; rewrite oner_eq0.
Defined.

Lemma weighted_statistics_array_witness :
  let X := [:: example_row (Fin 1) (Fin 2%:R);
               example_row (Fin 3%:R) (Fin 4%:R)] in
  let ws : seq (float rat) := [:: Fin 2%:R; Fin 3%:R] in
  let self := example_model None in
  [/\ has_shape self, size ws = size X
    & _get_weighted_statistics self (Array X) (WArray (nseq (size X) (f1 rat))) =
      _get_statistics self (Array X)].
Proof.
move=> X ws self; split=> //.
by have [] :=
  weighted_statistics_array (erefl : has_shape self)
    (erefl : size ws = size X).
Defined.

(** C5, as stated, fails.  On one array, weights 2 and 0 on two equal rows
    give the unweighted statistics although no weight is 1; and on a list of
    arrays the weights are not read at all. *)
Lemma weights_not_one_same_statistics :
  let r := example_row (Fin 1) (Fin 1) in
  let X := [:: r; r] in
  let ws : seq (float rat) := [:: Fin 2%:R; Fin 0] in
  let self := example_model None in
  [/\ Fin 2%:R <> f1 rat /\ Fin 0 <> f1 rat,
      _get_weighted_statistics self (Array X) (WArray ws) =
      _get_statistics self (Array X)
    & _get_weighted_statistics self (List [:: Array [:: r]])
        (WList [:: WArray [:: Fin 2%:R]]) =
      _get_statistics self (List [:: Array [:: r]])].
Proof.
move=> r X ws self; split; [by split | | by []].
rewrite get_weighted_statistics_array // get_statistics_array //=.
rewrite row_isnan_example /=.
have er : r = const_mx (Fin 1) by rewrite /r /example_row row_mx_const.
congr (Return (partition_statmat _ _ _ _)).
- apply/matrixP=> i j; rewrite !mxE !big_cons big_nil /= er !mxE /=.
  by rewrite !(mulr1, mul1r, mulr0, addr0) -(natrD _ 1 1).
- apply/rowP=> j; rewrite !mxE !big_cons big_nil /= er !mxE /=.
  by rewrite !(mulr1, mul1r, mulr0, addr0) -(natrD _ 1 1).
- by rewrite !big_cons big_nil /= !addr0 -(natrD _ 1 1).
Defined.

Lemma max_likelihood_broken_witness :
  let sg : 'M[float rat]_1 := lift 1%:M in
  let c := example_config (Some sg) in
  let st : stats rat 1 0 false := quad0 rat 1 1 in
  let res :=
    @max_likelihood rat (@eigvalsh_ref rat) (@solve_ref rat) nat 1 0 false 1
      (List [::]) None (Some st) c in
  [/\ input_statistics (List [::]) None (Some st) c = (c, Return st),
      ~~ (f0 rat < Fin 0)%fl, sigma c.1 = Some sg, broken res.1.1
    & res.2 = Return tt].
Proof.
move=> sg c st res.
have n0 : ~~ (f0 rat < Fin 0)%fl by rewrite /= ?ltxx.
have [e1 _ ok] :=
  @max_likelihood_broken rat (@eigvalsh_ref rat) (@solve_ref rat) nat 1 0
    false 1 (List [::]) None (Some st) (zeros rat 1 1) (zeros rat 1 1)
    (zeros rat 1 1) (Fin 0) c c sg erefl (or_introl n0) erefl
    (@eigvalsh_ref11 rat).
split=> //; first by rewrite [res.1]e1.
exact: (ok 1%:M erefl (spd_scalar 1 ltr01)).
Defined.

(** C2, as stated, fails: with no observation and a current [sigma] that is
    not positive definite, max_likelihood sets the flag and then raises
    AssertionError. *)
Lemma max_likelihood_broken_raises :
  let c := example_config (Some (lift 0%R)) in
  let res :=
    @max_likelihood rat (@eigvalsh_ref rat) (@solve_ref rat) nat 1 0 false 1
      (List [::]) None
      (Some (quad0 rat 1 1)) c in
  broken res.1.1 /\ res.2 = Raise AssertionError.
Proof.
move=> c res.
have n0 : ~~ (f0 rat < Fin 0)%fl by rewrite /= ?ltxx.
rewrite /res (max_likelihood_broken_eval (sg := lift 0%R) _ _ _ _ (or_introl n0)) //=.
by rewrite /sigma_postcondition all_pos_eigvalsh_ref11 mxE ltxx andbF.
Defined.

Lemma max_likelihood_estimate_witness :
  let yyT : 'M[rat]_1 := (5%:R)%:M in
  let yxT : 'M[rat]_1 := (2%:R)%:M in
  let xxT : 'M[rat]_1 := (4%:R)%:M in
  let c := example_config None in
  let st : stats rat 1 0 false :=
    (lift yyT, lift yxT, lift xxT, Fin 2%:R) in
  let res :=
    @max_likelihood rat (@eigvalsh_ref rat) (@solve_ref rat) nat 1 0 false 1
      (List [::]) None (Some st) c in
  [/\ input_statistics (List [::]) None (Some st) c = (c, Return st),
      (0 < 2%:R :> rat)%R, xxT \in unitmx
    & A res.1.1 = Some (lift (yxT *m (invmx xxT)^T)%R)].
Proof.
move=> yyT yxT xxT c st res.
have n0 : (0 < 2%:R :> rat)%R by rewrite ltr0n.
have uX : xxT \in unitmx := posdef_unit (spd_example 3).2.
split=> //.
by have [_ _ []] :=
  @max_likelihood_estimate rat (@eigvalsh_ref rat) (@solve_ref rat) nat 1 0
    false 1 (List [::]) None (Some st) yyT yxT xxT 2%:R c c
    (@solve_ref_unit rat 1 1) erefl n0 uX.
Defined.

Lemma nonconj_resample_sweeps_witness :
  let c := example_config (Some (lift 1%:M)) in
  let d : data rat 1 0 := Array [:: example_row (Fin 1) (Fin 2%:R)] in
  [/\ getdatasize (List [::] : data rat 1 0) = 0%N,
      nonconj_resample (@inv_ref rat) (@sample_gaussian_ref rat)
        (@sample_invwishart_ref rat) (List [::]) None c =
      prior_draws (@sample_gaussian_ref rat) (@sample_invwishart_ref rat) c,
      getdatasize d != 0%N
    & count (@is_statistics_call rat 1 0 false 1)
        (trace (nonconj_resample (@inv_ref rat) (@sample_gaussian_ref rat)
                  (@sample_invwishart_ref rat) d (Some 3) c).1.2) = 1%N].
Proof.
move=> c d; split; [by [] | | by [] |].
  have [H _] :=
    nonconj_resample_sweeps (@inv_ref rat) (@sample_gaussian_ref rat)
      (@sample_invwishart_ref rat) (List [::]) None c.
  by have [] := H erefl.
have [_ H] :=
  nonconj_resample_sweeps (@inv_ref rat) (@sample_gaussian_ref rat)
    (@sample_invwishart_ref rat) d (Some 3) c.
have est := get_statistics_array [:: example_row (Fin 1) (Fin 2%:R)]
              (erefl : has_shape c.1).
by have [] := H isT _ est.
Defined.

Lemma example_blocks_cover : (\sum_(i < 1) example_blocksizes 0%R i)%N = 1%N.
Proof. by rewrite big_ord1 mxE. Qed.

Lemma resample_K_blocks_witness :
  let c := example_config None in
  let diag : option 'rV[float rat]_(d_in 1 false) :=
    Some (const_mx (Fin 1)) in
  let shape := gamma_shape diag c.1 in
  let scale : 'rV[float rat]_1 :=
    \row_i (f1 rat / gamma_rate diag c.1 0 i)%fl in
  [/\ has_shape c.1, starts c.1 = cumsum (blocksizes c.1) true,
      stops c.1 = cumsum (blocksizes c.1) false,
      (\sum_(i < 1) blocksizes c.1 0%R i)%N = 1%N
    & trace (resample_K (@inv_ref rat) (@random_gamma_ref rat) diag c).1.2 =
      [:: Draw_gamma 1 0 false shape scale]].
Proof.
move=> c diag shape scale; split=> //; first exact: example_blocks_cover.
by have [] :=
  @resample_K_blocks rat (@inv_ref rat) nat (@random_gamma_ref rat) 1 0 false
    1 diag c (fun=> erefl) erefl erefl example_blocks_cover.
Defined.

Lemma ard_set_parameters_keeps_natural_witness :
  let c := example_config None in
  let K' : 'M[float rat]_1 := lift (7%:R)%:M in
  let c1 :=
    (@ard_set_parameters rat nat 1 0 false 1 (lift 1%:M, lift 1%:M, K') c).1 in
  K_0 c1.1 = K' /\ natural_hypparam c1.1 = natural_hypparam c.1.
Proof.
move=> c K' c1.
have [e [_ _ eK enat] _ _ _] :=
  @ard_set_parameters_keeps_natural rat (@inv_ref rat) (@eigvalsh_ref rat)
    nat (@sample_mniw_ref rat) (@random_gamma_ref rat) 1 0 false 1
    (lift 1%:M) (lift 1%:M) K' c (List [::]).
by rewrite /c1 e.
Defined.
